(** * A write-back cache in front of a durable key-value store

    Shallow embedding of [src/cache/cache.go] (package [cache]) and the
    properties of its operations [Get], [Set], [Evict], [Prefetch],
    [RemainingCapacity] and [Close].

    How the Go program is read here:

    - [int] is the 64-bit two's-complement integer; [++] and [-] wrap.
    - a [[]byte] is a slice header (backing array, offset, length) into a
      heap of byte arrays, so that a buffer shared between a caller and the
      cache is one array seen through two headers;
    - a Go [string] is an immutable byte sequence, here [string];
    - [map[string]*CacheEntry] is a [gmap string CacheEntry]: every entry
      pointer is held by the map alone, so an in-place field assignment is
      an [alter] of the map;
    - [*pebble.DB] is the external engine.  It is described by its contract:
      a key-value map, a record of what a synchronous write has made
      durable, and a schedule of faults that decides which calls fail;
    - [time.Now()] reads the next value of an arbitrary clock;
    - the operations run one at a time; the [sync.RWMutex] calls are not
      represented, nor are the [io.Closer]s that [db.Get] hands out;
    - [CreateCacheAndPebble], which only opens an engine and calls
      [CreateCache], is left out. *)

From Stdlib Require Import ZArith List Strings.Byte Strings.String Lia.
From stdpp Require Import base option list countable gmap strings.

#[local] Set Warnings "-clear-no-such-hyp".

Local Open Scope Z_scope.

(** ** Go's [int] *)

Definition int_min : Z := - 2 ^ 63.
Definition int_max : Z := 2 ^ 63 - 1.

Definition int_wrap (z : Z) : Z := (z + 2 ^ 63) mod 2 ^ 64 - 2 ^ 63.

Definition int_add (a b : Z) : Z := int_wrap (a + b).
Definition int_sub (a b : Z) : Z := int_wrap (a - b).

Definition is_int (z : Z) : Prop := int_min <= z <= int_max.

(** ** Bytes, backing arrays and slices *)

#[global] Instance byte_eqdec : EqDecision byte := Byte.byte_eq_dec.

#[global] Instance byte_countable : Countable byte :=
  inj_countable Byte.to_N Byte.of_N Byte.of_to_N.

(** The heap of backing arrays; an array is named by its index. *)
Abbreviation Heap := (list (list byte)).

(** A slice header.  [SNil] is the nil slice.  The capacity is left out:
    the program only ever appends to the nil slice. *)
Inductive Slice : Type :=
| SNil
| SRef (base off n : nat).

(** [len(s)] *)
Definition len (s : Slice) : Z :=
  match s with
  | SNil => 0
  | SRef _ _ n => Z.of_nat n
  end.

(** The bytes seen through a slice. *)
Definition read (h : Heap) (s : Slice) : list byte :=
  match s with
  | SNil => []
  | SRef b o n => take n (drop o (default [] (h !! b)))
  end.

(** A slice header that lies within an allocated array. *)
Definition valid (h : Heap) (s : Slice) : Prop :=
  match s with
  | SNil => True
  | SRef b o n =>
      match h !! b with
      | Some arr => (o + n ≤ length arr)%nat
      | None => False
      end
  end.

(** [s[i] = x], which panics (here [None]) when [i] is out of range. *)
Definition write (h : Heap) (s : Slice) (i : nat) (x : byte) : option Heap :=
  match s with
  | SNil => None
  | SRef b o n =>
      if decide (i < n)%nat then
        match h !! b with
        | Some arr => Some (<[b := <[(o + i)%nat := x]> arr]> h)
        | None => None
        end
      else None
  end.

(** ** The durable store *)

Inductive Error : Type :=
| ErrNotFound
| ErrStore (code : nat).

Inductive WriteOptions : Type :=
| Sync
| NoSync.

Record DB : Type := mkDB {
  kv : gmap (list byte) (list byte);
  synced : gmap (list byte) (list byte);
  faults : list (option nat)
}.

(** Every call to the engine takes the next scheduled outcome: [Some n]
    makes the call fail with [ErrStore n]; an exhausted schedule has no
    fault left. *)
Definition next_fault (d : DB) : option nat * DB :=
  match faults d with
  | [] => (None, d)
  | f :: fs => (f, mkDB (kv d) (synced d) fs)
  end.

Definition pebble_Get (d : DB) (key : list byte) : (Error + list byte) * DB :=
  let '(f, d1) := next_fault d in
  match f with
  | Some n => (inl (ErrStore n), d1)
  | None =>
      match kv d1 !! key with
      | Some v => (inr v, d1)
      | None => (inl ErrNotFound, d1)
      end
  end.

Definition pebble_Set (d : DB) (key val : list byte) (o : WriteOptions)
  : option Error * DB :=
  let '(f, d1) := next_fault d in
  match f with
  | Some n => (Some (ErrStore n), d1)
  | None =>
      let kv' := <[key := val]> (kv d1) in
      (None, mkDB kv' (match o with Sync => kv' | NoSync => synced d1 end)
                  (faults d1))
  end.

Definition pebble_Close (d : DB) : option Error * DB :=
  let '(f, d1) := next_fault d in
  (ErrStore <$> f, d1).

(** ** Statistics *)

Record Statistics : Type := mkStatistics {
  cache_hits : Z;
  cache_misses : Z;
  cache_accesses : Z;
  evictions : Z;
  prefetches : Z;
  additions : Z
}.

Definition CacheHit (s : Statistics) : Statistics :=
  let s1 := mkStatistics (cache_hits s) (cache_misses s)
              (int_add (cache_accesses s) 1)
              (evictions s) (prefetches s) (additions s) in
  mkStatistics (int_add (cache_hits s1) 1) (cache_misses s1)
    (cache_accesses s1) (evictions s1) (prefetches s1) (additions s1).

Definition CacheMiss (s : Statistics) : Statistics :=
  let s1 := mkStatistics (cache_hits s) (cache_misses s)
              (int_add (cache_accesses s) 1)
              (evictions s) (prefetches s) (additions s) in
  mkStatistics (cache_hits s1) (int_add (cache_misses s1) 1)
    (cache_accesses s1) (evictions s1) (prefetches s1) (additions s1).

Definition CacheEvict (s : Statistics) : Statistics :=
  mkStatistics (cache_hits s) (cache_misses s) (cache_accesses s)
    (int_add (evictions s) 1) (prefetches s) (additions s).

Definition CachePrefetch (s : Statistics) : Statistics :=
  mkStatistics (cache_hits s) (cache_misses s) (cache_accesses s)
    (evictions s) (int_add (prefetches s) 1) (additions s).

Definition CacheAdd (s : Statistics) : Statistics :=
  mkStatistics (cache_hits s) (cache_misses s) (cache_accesses s)
    (evictions s) (prefetches s) (int_add (additions s) 1).

(** [additions] is not listed in the literal and takes Go's zero value. *)
Definition CreateStatistics : Statistics :=
  mkStatistics 0 0 0 0 0 0.

(** ** Entries and the cache *)

Definition Time : Type := Z.

Record CacheEntry : Type := mkCacheEntry {
  value : Slice;
  size : Z;
  first_inserted : Time;
  last_updated : Time
}.

Record Cache : Type := mkCache {
  data : gmap string CacheEntry;
  capacity : Z;
  stats : Statistics;
  db : DB
}.

Definition CreateCache (d : DB) (cache_capacity : Z) : Cache :=
  mkCache ∅ cache_capacity CreateStatistics d.

(** [len(c.data)] *)
Definition len_data (d : gmap string CacheEntry) : Z := Z.of_nat (base.size d).

(** ** The world an operation runs in *)

Record World : Type := mkWorld {
  heap : Heap;
  clock : nat → Time;
  ticks : nat;
  cache : Cache
}.

Definition M (A : Type) : Type := World → A * World.

Definition ret {A} (a : A) : M A := λ w, (a, w).

Definition bind {A B} (m : M A) (f : A → M B) : M B :=
  λ w, let '(a, w1) := m w in f a w1.

Notation "x <- m ;; k" := (bind m (λ x, k))
  (at level 100, m at next level, right associativity,
   format "'[v' x  <-  m  ;;  '/' k ']'").
Notation "m ;;; k" := (bind m (λ _, k))
  (at level 100, right associativity, format "'[v' m  ;;;  '/' k ']'").

Definition with_cache (f : Cache → Cache) : M unit :=
  λ w, (tt, mkWorld (heap w) (clock w) (ticks w) (f (cache w))).

Definition get_data : M (gmap string CacheEntry) := λ w, (data (cache w), w).
Definition get_capacity : M Z := λ w, (capacity (cache w), w).

Definition set_data (d : gmap string CacheEntry) : M unit :=
  with_cache (λ c, mkCache d (capacity c) (stats c) (db c)).

(** A call of one of the methods of [c.stats]. *)
Definition stat (f : Statistics → Statistics) : M unit :=
  with_cache (λ c, mkCache (data c) (capacity c) (f (stats c)) (db c)).

(** A call of the engine behind [c.db]. *)
Definition on_db {A} (f : DB → A * DB) : M A :=
  λ w, let '(a, d) := f (db (cache w)) in
       (a, mkWorld (heap w) (clock w) (ticks w)
             (mkCache (data (cache w)) (capacity (cache w))
                (stats (cache w)) d)).

(** [time.Now()] *)
Definition time_Now : M Time :=
  λ w, (clock w (ticks w), mkWorld (heap w) (clock w) (S (ticks w)) (cache w)).

Definition load (s : Slice) : M (list byte) := λ w, (read (heap w) s, w).

(** A fresh backing array holding [bs]. *)
Definition alloc (bs : list byte) : M Slice :=
  λ w, (SRef (length (heap w)) 0 (length bs),
        mkWorld (heap w ++ [bs]) (clock w) (ticks w) (cache w)).

(** [append([]byte(nil), bs...)]: appending nothing to the nil slice gives
    the nil slice back, anything else is copied into a fresh array. *)
Definition append_nil_bytes (bs : list byte) : M Slice :=
  match bs with
  | [] => ret SNil
  | _ => alloc bs
  end.

Definition append_nil (s : Slice) : M Slice :=
  bs <- load s ;; append_nil_bytes bs.

(** [[]byte(k)] *)
Definition bytes_of_string (k : string) : M Slice :=
  alloc (list_byte_of_string k).

Definition db_Get (key : Slice) : M (Error + list byte) :=
  kb <- load key ;; on_db (λ d, pebble_Get d kb).

Definition db_Set (key val : Slice) (o : WriteOptions) : M (option Error) :=
  kb <- load key ;; vb <- load val ;; on_db (λ d, pebble_Set d kb vb o).

Definition db_Close : M (option Error) := on_db pebble_Close.

(** ** The operations of the cache *)

Definition makeKey (k : Slice) : M string :=
  t <- append_nil k ;;
  bs <- load t ;;
  ret (string_of_list_byte bs).

Definition Close : M (option Error) := db_Close.

Definition Get (key : Slice) : M (Slice * bool * option Error) :=
  k <- makeKey key ;;
  d <- get_data ;;
  match d !! k with
  | Some e =>
      copied_val <- append_nil (value e) ;;
      stat CacheHit ;;;
      ret (copied_val, true, None)
  | None =>
      stat CacheMiss ;;;
      r <- db_Get key ;;
      match r with
      | inl ErrNotFound => ret (SNil, false, None)
      | inl err => ret (SNil, false, Some err)
      | inr val =>
          copied_val <- append_nil_bytes val ;;
          ret (copied_val, true, None)
      end
  end.

(** In-place assignment to a field of the entry stored under [k]. *)
Definition entry_set (k : string) (f : CacheEntry → CacheEntry) : M unit :=
  d <- get_data ;; set_data (alter f k d).

Definition Set_ (key val : Slice) (addToCache : bool) : M (bool * option Error) :=
  k <- makeKey key ;;
  v <- append_nil val ;;
  d <- get_data ;;
  match d !! k with
  | Some _ =>
      stat CacheHit ;;;
      t <- time_Now ;;
      entry_set k (λ e, mkCacheEntry (value e) (size e) (first_inserted e) t) ;;;
      entry_set k (λ e, mkCacheEntry (value e) (len v) (first_inserted e) (last_updated e)) ;;;
      entry_set k (λ e, mkCacheEntry v (size e) (first_inserted e) (last_updated e)) ;;;
      ret (true, None)
  | None =>
      stat CacheMiss ;;;
      cap <- get_capacity ;;
      if addToCache && (len_data d <? cap) then
        t1 <- time_Now ;;
        t2 <- time_Now ;;
        set_data (<[k := mkCacheEntry val (len v) t1 t2]> d) ;;;
        ret (true, None)
      else
        err <- db_Set key val Sync ;;
        match err with
        | Some e => ret (false, Some e)
        | None => ret (false, None)
        end
  end.

Definition Evict (key : Slice) : M (bool * option Error) :=
  k <- makeKey key ;;
  d <- get_data ;;
  match d !! k with
  | None => ret (false, None)
  | Some e =>
      set_data (delete k d) ;;;
      copied_val <- append_nil (value e) ;;
      kb <- bytes_of_string k ;;
      err <- db_Set kb copied_val Sync ;;
      match err with
      | Some er => ret (false, Some er)
      | None =>
          stat CacheEvict ;;;
          ret (true, None)
      end
  end.

Definition RemainingCapacity : M Z :=
  cap <- get_capacity ;;
  d <- get_data ;;
  ret (int_sub cap (len_data d)).

(** The first loop of [Prefetch]: [seen] and [stringKeys]. *)
Fixpoint dedup_loop (keys : list Slice) (seen : gset string)
    (stringKeys : list string) : M (list string) :=
  match keys with
  | [] => ret stringKeys
  | kb :: rest =>
      k <- makeKey kb ;;
      if decide (k ∈ seen) then dedup_loop rest seen stringKeys
      else dedup_loop rest ({[k]} ∪ seen) (stringKeys ++ [k])
  end.

(** How one round of the second loop ends: [continue] with the running
    count, or [return]. *)
Inductive Round : Type :=
| Continue (successes : Z)
| Return (successes : Z) (err : Error).

Definition prefetch_round (k : string) (successes : Z) : M Round :=
  d <- get_data ;;
  match d !! k with
  | Some _ => ret (Continue (int_add successes 1))
  | None =>
      kb <- bytes_of_string k ;;
      r <- db_Get kb ;;
      match r with
      | inl ErrNotFound => ret (Continue successes)
      | inl err => ret (Return successes err)
      | inr val =>
          copied_val <- append_nil_bytes val ;;
          d <- get_data ;;
          match d !! k with
          | Some _ => ret (Continue (int_add successes 1))
          | None =>
              rc <- RemainingCapacity ;;
              if rc =? 0 then ret (Continue successes)
              else
                t1 <- time_Now ;;
                t2 <- time_Now ;;
                d <- get_data ;;
                set_data (<[k := mkCacheEntry copied_val (len copied_val) t1 t2]> d) ;;;
                ret (Continue (int_add successes 1))
          end
      end
  end.

Fixpoint prefetch_loop (stringKeys : list string) (successes : Z)
  : M (Z * option Error) :=
  match stringKeys with
  | [] => ret (successes, None)
  | k :: rest =>
      r <- prefetch_round k successes ;;
      match r with
      | Continue s => prefetch_loop rest s
      | Return s err => ret (s, Some err)
      end
  end.

Definition Prefetch (keys : list Slice) : M (Z * option Error) :=
  stringKeys <- dedup_loop keys ∅ [] ;;
  prefetch_loop stringKeys 0.

(** ** Callers *)

(** What a client of the package can do: call the cache, allocate a
    buffer, or write into a buffer it holds. *)
Inductive Call : Type :=
| CallGet (key : Slice)
| CallSet (key val : Slice) (addToCache : bool)
| CallEvict (key : Slice)
| CallPrefetch (keys : list Slice)
| CallRemainingCapacity
| CallClose
| CallerAlloc (bs : list byte)
| CallerWrite (s : Slice) (i : nat) (x : byte).

(** A write that panics leaves the world as it was. *)
Definition caller_write (s : Slice) (i : nat) (x : byte) (w : World) : World :=
  match write (heap w) s i x with
  | Some h => mkWorld h (clock w) (ticks w) (cache w)
  | None => w
  end.

Definition exec (c : Call) (w : World) : World :=
  match c with
  | CallGet key => (Get key w).2
  | CallSet key val addToCache => (Set_ key val addToCache w).2
  | CallEvict key => (Evict key w).2
  | CallPrefetch keys => (Prefetch keys w).2
  | CallRemainingCapacity => (RemainingCapacity w).2
  | CallClose => (Close w).2
  | CallerAlloc bs => (alloc bs w).2
  | CallerWrite s i x => caller_write s i x w
  end.

Definition run (cs : list Call) (w : World) : World :=
  foldl (λ w c, exec c w) w cs.

(** The world right after [CreateCache(db, cache_capacity)]. *)
Definition start (h : Heap) (clk : nat → Time) (d : DB) (cache_capacity : Z)
  : World :=
  mkWorld h clk 0 (CreateCache d cache_capacity).

(** ** Vocabulary for the statements *)

(** The table key that [makeKey] computes for a slice. *)
Definition key_of (h : Heap) (s : Slice) : string :=
  string_of_list_byte (read h s).

(** What [append([]byte(nil), bs...)] adds to the heap and returns. *)
Definition fresh_ext (bs : list byte) : Heap :=
  match bs with
  | [] => []
  | _ => [bs]
  end.

Definition fresh_slice (h : Heap) (bs : list byte) : Slice :=
  match bs with
  | [] => SNil
  | _ => SRef (length h) 0 (length bs)
  end.

Definition grow (ext : Heap) (w : World) : World :=
  mkWorld (heap w ++ ext) (clock w) (ticks w) (cache w).

(** The next call to the engine does not fail. *)
Definition no_fault (d : DB) : Prop := (next_fault d).1 = None.

(** The next call to the engine fails with [ErrStore n]. *)
Definition fault (d : DB) (n : nat) : Prop := (next_fault d).1 = Some n.

(** The engine once its next scheduled outcome is consumed. *)
Definition after_call (d : DB) : DB := (next_fault d).2.

(** No call to the engine is scheduled to fail. *)
Definition fault_free (d : DB) : Prop := Forall (λ f, f = None) (faults d).

(** The bytes the table holds for each resident key. *)
Definition contents (w : World) : gmap string (list byte) :=
  (λ e, read (heap w) (value e)) <$> data (cache w).

(** De-duplication as the specification words it: each key is kept at
    its first occurrence, later occurrences are dropped. *)
Fixpoint dedup_first (l : list string) : list string :=
  match l with
  | [] => []
  | x :: rest => x :: filter (λ y, y ≠ x) (dedup_first rest)
  end.

(** The first loop of [Prefetch] on the keys themselves. *)
Fixpoint dedup_keys (ks : list string) (seen : gset string)
    (stringKeys : list string) : list string :=
  match ks with
  | [] => stringKeys
  | k :: rest =>
      if decide (k ∈ seen) then dedup_keys rest seen stringKeys
      else dedup_keys rest ({[k]} ∪ seen) (stringKeys ++ [k])
  end.

(** The ways a single operation changes the table: not at all, by
    overwriting a resident entry, by inserting under the guard of [Set]
    ([len(c.data) < c.capacity]), by inserting under the guard of
    [Prefetch] ([RemainingCapacity() != 0]), or by deleting a key. *)
Inductive table_change (cap : Z) (d : gmap string CacheEntry)
  : gmap string CacheEntry → Prop :=
| change_none : table_change cap d d
| change_overwrite k e e' :
    d !! k = Some e → table_change cap d (<[k := e']> d)
| change_admit k e' :
    d !! k = None → len_data d < cap → table_change cap d (<[k := e']> d)
| change_fill k e' :
    d !! k = None → int_sub cap (len_data d) ≠ 0 →
    table_change cap d (<[k := e']> d)
| change_delete k : table_change cap d (delete k d).

(** The effect of one operation on the cache. *)
Definition effect (w w' : World) : Prop :=
  capacity (cache w') = capacity (cache w) ∧
  prefetches (stats (cache w')) = prefetches (stats (cache w)) ∧
  additions (stats (cache w')) = additions (stats (cache w)) ∧
  table_change (capacity (cache w)) (data (cache w)) (data (cache w')).

(** The table holds no more entries than the capacity allows. *)
Definition bounded (w : World) : Prop :=
  len_data (data (cache w)) <= capacity (cache w).

(** What any sequence of operations keeps. *)
Definition frame (w w' : World) : Prop :=
  capacity (cache w') = capacity (cache w) ∧
  prefetches (stats (cache w')) = prefetches (stats (cache w)) ∧
  additions (stats (cache w')) = additions (stats (cache w)) ∧
  (bounded w → bounded w').

(** Only the miss counter moved, by one. *)
Definition only_misses_moved (s s' : Statistics) : Prop :=
  cache_misses s' = int_add (cache_misses s) 1 ∧
  cache_hits s' = cache_hits s ∧
  cache_accesses s' = cache_accesses s ∧
  evictions s' = evictions s ∧
  prefetches s' = prefetches s ∧
  additions s' = additions s.

(** ** Vocabulary for the further properties *)

(** Every entry of the table points into the heap. *)
Definition entries_valid (w : World) : Prop :=
  ∀ k e, data (cache w) !! k = Some e → valid (heap w) (value e).

(** The access counter is the sum of the hit and the miss counter, as
    [int]s. *)
Definition accesses_add_up (s : Statistics) : Prop :=
  cache_accesses s = int_wrap (cache_hits s + cache_misses s).

(** How many of the keys [ks] are in the table [d]. *)
Definition count_resident (d : gmap string CacheEntry) (ks : list string) : Z :=
  Z.of_nat (length (filter (λ k, is_Some (d !! k)) ks)).

(** An entry as the cache builds it: its slice lies in the heap, [size] is
    the length of the slice, and both timestamps are readings of the clock
    already taken, [first_inserted] not after [last_updated]. *)
Definition entry_ok (h : Heap) (clk : nat → Time) (t : nat) (e : CacheEntry)
  : Prop :=
  valid h (value e) ∧
  size e = len (value e) ∧
  ∃ i j, (i ≤ j < t)%nat ∧ first_inserted e = clk i ∧ last_updated e = clk j.

Definition entries_ok (clk : nat → Time) (w : World) : Prop :=
  clock w = clk ∧
  ∀ k e, data (cache w) !! k = Some e →
         entry_ok (heap w) clk (ticks w) e.

(** The value handed to [Set] is a slice of the heap. *)
Definition call_valid (h : Heap) (c : Call) : Prop :=
  match c with
  | CallSet _ val _ => valid h val
  | _ => True
  end.

Fixpoint calls_valid (cs : list Call) (w : World) : Prop :=
  match cs with
  | [] => True
  | c :: rest => call_valid (heap w) c ∧ calls_valid rest (exec c w)
  end.

(** ** Sample worlds *)

(** Three one-byte buffers of a client: the keys ["k"] and ["j"] and the
    value [0x01]. *)
Definition ex_heap : list (list byte) := [[x6b]; [x01]; [x6a]].
Definition ex_K : Slice := SRef 0 0 1.
Definition ex_V : Slice := SRef 1 0 1.
Definition ex_J : Slice := SRef 2 0 1.

Definition ex_clock : nat → Time := Z.of_nat.

(** A new cache over an empty store that never fails. *)
Definition ex_empty (cap : Z) : World :=
  start ex_heap ex_clock (mkDB ∅ ∅ []) cap.

(** ["j"] written straight to the store, then ["k"] admitted to the table. *)
Definition ex_warm (cap : Z) : World :=
  (Set_ ex_K ex_V true (Set_ ex_J ex_V false (ex_empty cap)).2).2.

(** ["k"] admitted to the table of a cache whose store fails its next call. *)
Definition ex_failing : World :=
  (Set_ ex_K ex_V true (start ex_heap ex_clock (mkDB ∅ ∅ [Some 7%nat]) 1)).2.

(** * Properties *)

(** ** Integers *)


Lemma int_wrap_id z : is_int z → int_wrap z = z.
Proof.
  unfold is_int, int_min, int_max, int_wrap. intros H.
  rewrite Z.mod_small; lia.
Qed.

Lemma int_wrap_0 : int_wrap 0 = 0.
Proof. reflexivity. Qed.

Lemma int_incr z : z < int_max → is_int z → int_add z 1 = z + 1.
Proof.
  unfold int_add. intros H1 H2. apply int_wrap_id.
  unfold is_int, int_min, int_max in *. lia.
Qed.

Lemma int_sub_pos a b : 0 <= b < a → a <= int_max → int_sub a b ≠ 0.
Proof.
  unfold int_sub. intros H1 H2. rewrite int_wrap_id.
  - lia.
  - unfold is_int, int_min, int_max in *. lia.
Qed.

(** ** Slices, the heap and keys *)

Lemma read_grow h ext s : valid h s → read (h ++ ext) s = read h s.
Proof.
  destruct s as [|b o n]; simpl; [done|].
  destruct (h !! b) as [arr|] eqn:E; [|done].
  intros _. by rewrite (lookup_app_l_Some _ _ _ _ E).
Qed.

Lemma valid_grow h ext s : valid h s → valid (h ++ ext) s.
Proof.
  destruct s as [|b o n]; simpl; [done|].
  destruct (h !! b) as [arr|] eqn:E; [|done].
  by rewrite (lookup_app_l_Some _ _ _ _ E).
Qed.

Lemma read_fresh h bs : read (h ++ fresh_ext bs) (fresh_slice h bs) = bs.
Proof.
  destruct bs as [|x bs]; [done|].
  cbn [fresh_ext fresh_slice read].
  rewrite lookup_app_r by lia. rewrite Nat.sub_diag. cbn [lookup list_lookup default].
  rewrite drop_0. apply firstn_all.
Qed.

Lemma valid_fresh h bs : valid (h ++ fresh_ext bs) (fresh_slice h bs).
Proof.
  destruct bs as [|x bs]; [done|].
  cbn [fresh_ext fresh_slice valid].
  rewrite lookup_app_r by lia. rewrite Nat.sub_diag. cbn. lia.
Qed.

Lemma len_fresh h bs : len (fresh_slice h bs) = Z.of_nat (length bs).
Proof. by destruct bs. Qed.

Lemma len_read h s : valid h s → Z.of_nat (length (read h s)) = len s.
Proof.
  destruct s as [|b o n]; simpl; [done|].
  destruct (h !! b) as [arr|]; [|done]. intros H. simpl.
  rewrite length_take, length_drop. lia.
Qed.

Lemma grow_nil w : grow [] w = w.
Proof. destruct w. unfold grow. simpl. by rewrite app_nil_r. Qed.

Lemma grow_grow e1 e2 w : grow e2 (grow e1 w) = grow (e1 ++ e2) w.
Proof. unfold grow. simpl. by rewrite app_assoc. Qed.

Lemma append_nil_bytes_eq bs w :
  append_nil_bytes bs w = (fresh_slice (heap w) bs, grow (fresh_ext bs) w).
Proof. destruct bs; [|done]. simpl. by rewrite grow_nil. Qed.

Lemma append_nil_eq s w :
  append_nil s w =
  (fresh_slice (heap w) (read (heap w) s), grow (fresh_ext (read (heap w) s)) w).
Proof. unfold append_nil, bind, load. apply append_nil_bytes_eq. Qed.

Lemma makeKey_eq key w :
  makeKey key w = (key_of (heap w) key, grow (fresh_ext (read (heap w) key)) w).
Proof.
  unfold makeKey, bind. rewrite append_nil_eq. unfold load, ret.
  cbn [heap grow]. by rewrite read_fresh.
Qed.

Lemma key_of_inj h1 h2 s1 s2 :
  key_of h1 s1 = key_of h2 s2 ↔ read h1 s1 = read h2 s2.
Proof.
  unfold key_of. split; [|congruence]. intros H.
  rewrite <- (list_byte_of_string_of_list_byte (read h1 s1)), H.
  apply list_byte_of_string_of_list_byte.
Qed.

Lemma bytes_of_key h s : list_byte_of_string (key_of h s) = read h s.
Proof. apply list_byte_of_string_of_list_byte. Qed.

(** ** The engine *)


Lemma kv_after_call d : kv (after_call d) = kv d.
Proof. unfold after_call, next_fault. by destruct (faults d). Qed.

Lemma synced_after_call d : synced (after_call d) = synced d.
Proof. unfold after_call, next_fault. by destruct (faults d). Qed.

Lemma faults_after_call d : faults (after_call d) = tail (faults d).
Proof.
  unfold after_call, next_fault. destruct (faults d) eqn:E; simpl; by rewrite ?E.
Qed.

Lemma pebble_Get_ok d k :
  no_fault d →
  pebble_Get d k =
  (match kv d !! k with Some v => inr v | None => inl ErrNotFound end,
   after_call d).
Proof.
  unfold no_fault, after_call, pebble_Get.
  destruct (next_fault d) as [f d1] eqn:E. simpl. intros ->.
  replace (kv d1) with (kv d); [by destruct (kv d !! k)|].
  unfold next_fault in E. destruct (faults d); by inversion E.
Qed.

Lemma pebble_Get_fault d k n :
  fault d n → pebble_Get d k = (inl (ErrStore n), after_call d).
Proof.
  unfold fault, after_call, pebble_Get.
  destruct (next_fault d) as [f d1]. simpl. by intros ->.
Qed.

Lemma pebble_Set_ok d k v :
  no_fault d →
  pebble_Set d k v Sync =
  (None, mkDB (<[k := v]> (kv d)) (<[k := v]> (kv d)) (tail (faults d))).
Proof.
  unfold no_fault, pebble_Set, next_fault.
  destruct (faults d) as [|f fs] eqn:E; simpl; [by rewrite E|]. by intros ->.
Qed.

Lemma pebble_Set_fault d k v o n :
  fault d n → pebble_Set d k v o = (Some (ErrStore n), after_call d).
Proof.
  unfold fault, after_call, pebble_Set.
  destruct (next_fault d) as [f d1]. simpl. by intros ->.
Qed.

(** ** Symbolic execution of the operations *)

Arguments int_wrap : simpl never.
Arguments int_add : simpl never.
Arguments int_sub : simpl never.
Arguments CacheHit : simpl never.
Arguments CacheMiss : simpl never.
Arguments CacheEvict : simpl never.
Arguments fresh_ext : simpl never.
Arguments fresh_slice : simpl never.
Arguments read : simpl never.
Arguments len_data : simpl never.
Arguments append_nil : simpl never.
Arguments append_nil_bytes : simpl never.
Arguments makeKey : simpl never.

Ltac unfold_ops :=
  unfold Get, Set_, Evict, RemainingCapacity, Close, prefetch_round,
    db_Get, db_Set, db_Close, bytes_of_string, entry_set, bind.

Ltac sym_exec :=
  repeat (progress
    (cbn;
     unfold ret, grow, load, alloc, get_data, get_capacity, set_data, stat,
       with_cache, time_Now;
     rewrite ?makeKey_eq, ?append_nil_eq, ?append_nil_bytes_eq)).

(** ** The cases of [Get], [Set] and [Evict] *)

Lemma alter_Some {A} (f : A → A) (k : string) (d : gmap string A) e :
  d !! k = Some e → alter f k d = <[k := f e]> d.
Proof.
  intros H. apply map_eq. intros j. rewrite lookup_alter, lookup_insert.
  case_decide; subst; by rewrite ?H.
Qed.

Lemma Get_hit key w e :
  data (cache w) !! key_of (heap w) key = Some e →
  valid (heap w) (value e) →
  ∃ ext s,
    Get key w =
      ((s, true, None),
       mkWorld (heap w ++ ext) (clock w) (ticks w)
         (mkCache (data (cache w)) (capacity (cache w))
            (CacheHit (stats (cache w))) (db (cache w)))) ∧
    read (heap w ++ ext) s = read (heap w) (value e) ∧
    valid (heap w ++ ext) s ∧
    (∀ b o n, s = SRef b o n → (length (heap w) ≤ b)%nat).
Proof.
  intros Hd Hv. unfold_ops. sym_exec. rewrite Hd. sym_exec.
  rewrite <- app_assoc.
  eexists _, _. split; [reflexivity|].
  rewrite app_assoc, read_fresh. rewrite read_grow by done.
  split; [done|]. split; [apply valid_fresh|].
  intros b o n. unfold fresh_slice.
  destruct (read (heap w) (value e)); [done|]. intros [= <- _ _].
  rewrite length_app. lia.
Qed.

Lemma Get_miss_notfound key w :
  data (cache w) !! key_of (heap w) key = None →
  valid (heap w) key →
  no_fault (db (cache w)) →
  kv (db (cache w)) !! read (heap w) key = None →
  ∃ ext,
    Get key w =
      ((SNil, false, None),
       mkWorld (heap w ++ ext) (clock w) (ticks w)
         (mkCache (data (cache w)) (capacity (cache w))
            (CacheMiss (stats (cache w))) (after_call (db (cache w))))).
Proof.
  intros Hd Hv Hf Hkv. unfold_ops. sym_exec. rewrite Hd. sym_exec.
  unfold on_db. cbn. rewrite read_grow by done.
  rewrite pebble_Get_ok by done. rewrite Hkv. cbn. by eexists.
Qed.

Lemma Get_miss_found key w v :
  data (cache w) !! key_of (heap w) key = None →
  valid (heap w) key →
  no_fault (db (cache w)) →
  kv (db (cache w)) !! read (heap w) key = Some v →
  ∃ ext s,
    Get key w =
      ((s, true, None),
       mkWorld (heap w ++ ext) (clock w) (ticks w)
         (mkCache (data (cache w)) (capacity (cache w))
            (CacheMiss (stats (cache w))) (after_call (db (cache w))))) ∧
    read (heap w ++ ext) s = v ∧
    valid (heap w ++ ext) s.
Proof.
  intros Hd Hv Hf Hkv. unfold_ops. sym_exec. rewrite Hd. sym_exec.
  unfold on_db. cbn. rewrite read_grow by done.
  rewrite pebble_Get_ok by done. rewrite Hkv. sym_exec.
  rewrite <- app_assoc. eexists _, _. split; [reflexivity|].
  rewrite app_assoc. split; [apply read_fresh | apply valid_fresh].
Qed.

Lemma Get_miss_fault key w n :
  data (cache w) !! key_of (heap w) key = None →
  fault (db (cache w)) n →
  ∃ ext,
    Get key w =
      ((SNil, false, Some (ErrStore n)),
       mkWorld (heap w ++ ext) (clock w) (ticks w)
         (mkCache (data (cache w)) (capacity (cache w))
            (CacheMiss (stats (cache w))) (after_call (db (cache w))))).
Proof.
  intros Hd Hf. unfold_ops. sym_exec. rewrite Hd. sym_exec.
  unfold on_db. cbn. rewrite (pebble_Get_fault _ _ n) by done. cbn.
  by eexists.
Qed.

Lemma Set_resident key val addToCache w e :
  data (cache w) !! key_of (heap w) key = Some e →
  valid (heap w) val →
  ∃ ext v,
    Set_ key val addToCache w =
      ((true, None),
       mkWorld (heap w ++ ext) (clock w) (S (ticks w))
         (mkCache
            (<[key_of (heap w) key :=
                 mkCacheEntry v (len val) (first_inserted e)
                   (clock w (ticks w))]> (data (cache w)))
            (capacity (cache w)) (CacheHit (stats (cache w)))
            (db (cache w)))) ∧
    read (heap w ++ ext) v = read (heap w) val ∧
    valid (heap w ++ ext) v ∧
    (∀ b o n, v = SRef b o n → (length (heap w) ≤ b)%nat).
Proof.
  intros Hd Hv. unfold_ops. sym_exec. rewrite Hd. sym_exec.
  rewrite (alter_Some _ _ (data (cache w)) e) by done.
  rewrite !alter_insert_eq. cbn. rewrite len_fresh.
  rewrite (read_grow (heap w)) by done. rewrite len_read by done.
  rewrite <- app_assoc. eexists _, _. split; [reflexivity|].
  rewrite app_assoc, read_fresh.
  split; [done|]. split; [apply valid_fresh|].
  intros b o n. unfold fresh_slice.
  destruct (read (heap w) val); [done|]. intros [= <- _ _].
  rewrite length_app. lia.
Qed.

Lemma Set_admit key val w :
  data (cache w) !! key_of (heap w) key = None →
  len_data (data (cache w)) < capacity (cache w) →
  valid (heap w) val →
  ∃ ext,
    Set_ key val true w =
      ((true, None),
       mkWorld (heap w ++ ext) (clock w) (S (S (ticks w)))
         (mkCache
            (<[key_of (heap w) key :=
                 mkCacheEntry val (len val) (clock w (ticks w))
                   (clock w (S (ticks w)))]> (data (cache w)))
            (capacity (cache w)) (CacheMiss (stats (cache w)))
            (db (cache w)))).
Proof.
  intros Hd Hc Hv. unfold_ops. sym_exec. rewrite Hd. sym_exec.
  apply Z.ltb_lt in Hc. rewrite Hc. sym_exec.
  rewrite <- app_assoc. eexists. rewrite len_fresh.
  rewrite read_grow, len_read by done. reflexivity.
Qed.

Lemma Set_store_ok key val addToCache w :
  data (cache w) !! key_of (heap w) key = None →
  addToCache = false ∨ capacity (cache w) <= len_data (data (cache w)) →
  valid (heap w) key →
  valid (heap w) val →
  no_fault (db (cache w)) →
  ∃ ext,
    Set_ key val addToCache w =
      ((false, None),
       mkWorld (heap w ++ ext) (clock w) (ticks w)
         (mkCache (data (cache w)) (capacity (cache w))
            (CacheMiss (stats (cache w)))
            (let kv' := <[read (heap w) key := read (heap w) val]>
                          (kv (db (cache w))) in
             mkDB kv' kv' (tail (faults (db (cache w))))))).
Proof.
  intros Hd Hc Hk Hv Hf. unfold_ops. sym_exec. rewrite Hd. sym_exec.
  replace (addToCache && (len_data (data (cache w)) <? capacity (cache w)))
    with false.
  2:{ destruct Hc as [-> | Hc]; [done|].
      apply Z.ltb_ge in Hc. rewrite Hc. by destruct addToCache. }
  sym_exec. unfold on_db. cbn. rewrite <- app_assoc.
  rewrite !read_grow by done. rewrite pebble_Set_ok by done. cbn.
  by eexists.
Qed.

Lemma Set_store_fault key val addToCache w n :
  data (cache w) !! key_of (heap w) key = None →
  addToCache = false ∨ capacity (cache w) <= len_data (data (cache w)) →
  fault (db (cache w)) n →
  ∃ ext,
    Set_ key val addToCache w =
      ((false, Some (ErrStore n)),
       mkWorld (heap w ++ ext) (clock w) (ticks w)
         (mkCache (data (cache w)) (capacity (cache w))
            (CacheMiss (stats (cache w))) (after_call (db (cache w))))).
Proof.
  intros Hd Hc Hf. unfold_ops. sym_exec. rewrite Hd. sym_exec.
  replace (addToCache && (len_data (data (cache w)) <? capacity (cache w)))
    with false.
  2:{ destruct Hc as [-> | Hc]; [done|].
      apply Z.ltb_ge in Hc. rewrite Hc. by destruct addToCache. }
  sym_exec. unfold on_db. cbn. rewrite <- app_assoc.
  rewrite (pebble_Set_fault _ _ _ _ n) by done. cbn. by eexists.
Qed.

Lemma Evict_absent key w :
  data (cache w) !! key_of (heap w) key = None →
  ∃ ext,
    Evict key w =
      ((false, None), mkWorld (heap w ++ ext) (clock w) (ticks w) (cache w)).
Proof.
  intros Hd. unfold_ops. sym_exec. rewrite Hd. sym_exec. by eexists.
Qed.

Lemma read_alloc (h : Heap) bs :
  read (h ++ [bs]) (SRef (length h) 0 (length bs)) = bs.
Proof.
  unfold read. rewrite lookup_app_r by lia. rewrite Nat.sub_diag. cbn.
  apply firstn_all.
Qed.

Lemma valid_alloc (h : Heap) bs :
  valid (h ++ [bs]) (SRef (length h) 0 (length bs)).
Proof.
  unfold valid. rewrite lookup_app_r by lia. rewrite Nat.sub_diag. cbn. lia.
Qed.

Lemma Evict_ok key w e :
  data (cache w) !! key_of (heap w) key = Some e →
  valid (heap w) (value e) →
  no_fault (db (cache w)) →
  ∃ ext,
    Evict key w =
      ((true, None),
       mkWorld (heap w ++ ext) (clock w) (ticks w)
         (mkCache (delete (key_of (heap w) key) (data (cache w)))
            (capacity (cache w)) (CacheEvict (stats (cache w)))
            (let kv' := <[read (heap w) key := read (heap w) (value e)]>
                          (kv (db (cache w))) in
             mkDB kv' kv' (tail (faults (db (cache w))))))).
Proof.
  intros Hd Hv Hf. unfold_ops. sym_exec. rewrite Hd. sym_exec.
  unfold on_db. cbn. rewrite read_alloc, bytes_of_key.
  rewrite (read_grow _ [_]) by apply valid_fresh. rewrite read_fresh.
  rewrite (read_grow (heap w)) by done.
  rewrite pebble_Set_ok by done. cbn.
  rewrite <- !app_assoc. by eexists.
Qed.

Lemma Evict_fault key w e n :
  data (cache w) !! key_of (heap w) key = Some e →
  fault (db (cache w)) n →
  ∃ ext,
    Evict key w =
      ((false, Some (ErrStore n)),
       mkWorld (heap w ++ ext) (clock w) (ticks w)
         (mkCache (delete (key_of (heap w) key) (data (cache w)))
            (capacity (cache w)) (stats (cache w))
            (after_call (db (cache w))))).
Proof.
  intros Hd Hf. unfold_ops. sym_exec. rewrite Hd. sym_exec.
  unfold on_db. cbn. rewrite (pebble_Set_fault _ _ _ _ n) by done. cbn.
  rewrite <- !app_assoc. by eexists.
Qed.

(** *** One round of [Prefetch] *)

Lemma round_resident k s w :
  is_Some (data (cache w) !! k) →
  prefetch_round k s w = (Continue (int_add s 1), w).
Proof.
  intros [e He]. unfold_ops. sym_exec. by rewrite He.
Qed.

Lemma round_fault k s w n :
  data (cache w) !! k = None →
  fault (db (cache w)) n →
  ∃ ext,
    prefetch_round k s w =
      (Return s (ErrStore n),
       mkWorld (heap w ++ ext) (clock w) (ticks w)
         (mkCache (data (cache w)) (capacity (cache w)) (stats (cache w))
            (after_call (db (cache w))))).
Proof.
  intros Hd Hf. unfold_ops. sym_exec. rewrite Hd. sym_exec.
  unfold on_db. cbn. rewrite (pebble_Get_fault _ _ n) by done. cbn.
  by eexists.
Qed.

Lemma round_notfound k s w :
  data (cache w) !! k = None →
  no_fault (db (cache w)) →
  kv (db (cache w)) !! list_byte_of_string k = None →
  ∃ ext,
    prefetch_round k s w =
      (Continue s,
       mkWorld (heap w ++ ext) (clock w) (ticks w)
         (mkCache (data (cache w)) (capacity (cache w)) (stats (cache w))
            (after_call (db (cache w))))).
Proof.
  intros Hd Hf Hkv. unfold_ops. sym_exec. rewrite Hd. sym_exec.
  unfold on_db. cbn. rewrite read_alloc.
  rewrite pebble_Get_ok by done. rewrite Hkv. cbn. by eexists.
Qed.

Lemma round_full k s w v :
  data (cache w) !! k = None →
  no_fault (db (cache w)) →
  kv (db (cache w)) !! list_byte_of_string k = Some v →
  int_sub (capacity (cache w)) (len_data (data (cache w))) = 0 →
  ∃ ext,
    prefetch_round k s w =
      (Continue s,
       mkWorld (heap w ++ ext) (clock w) (ticks w)
         (mkCache (data (cache w)) (capacity (cache w)) (stats (cache w))
            (after_call (db (cache w))))).
Proof.
  intros Hd Hf Hkv Hrc. unfold_ops. sym_exec. rewrite Hd. sym_exec.
  unfold on_db. cbn. rewrite read_alloc.
  rewrite pebble_Get_ok by done. rewrite Hkv. sym_exec.
  rewrite Hd. sym_exec. rewrite Hrc. cbn.
  rewrite <- !app_assoc. by eexists.
Qed.

Lemma round_admit k s w v :
  data (cache w) !! k = None →
  no_fault (db (cache w)) →
  kv (db (cache w)) !! list_byte_of_string k = Some v →
  int_sub (capacity (cache w)) (len_data (data (cache w))) ≠ 0 →
  ∃ ext val,
    prefetch_round k s w =
      (Continue (int_add s 1),
       mkWorld (heap w ++ ext) (clock w) (S (S (ticks w)))
         (mkCache
            (<[k := mkCacheEntry val (Z.of_nat (length v))
                      (clock w (ticks w)) (clock w (S (ticks w)))]>
               (data (cache w)))
            (capacity (cache w)) (stats (cache w))
            (after_call (db (cache w))))) ∧
    read (heap w ++ ext) val = v ∧
    valid (heap w ++ ext) val.
Proof.
  intros Hd Hf Hkv Hrc. unfold_ops. sym_exec. rewrite Hd. sym_exec.
  unfold on_db. cbn. rewrite read_alloc.
  rewrite pebble_Get_ok by done. rewrite Hkv. sym_exec.
  rewrite Hd. sym_exec. apply Z.eqb_neq in Hrc. rewrite Hrc. sym_exec.
  rewrite len_fresh. rewrite <- !app_assoc.
  eexists _, _. split; [reflexivity|].
  rewrite !app_assoc. split; [apply read_fresh | apply valid_fresh].
Qed.

(** ** What every operation keeps *)

Lemma table_change_bounded cap d d' :
  table_change cap d d' → len_data d <= cap → len_data d' <= cap.
Proof.
  intros [] Hb; unfold len_data in *.
  - done.
  - rewrite map_size_insert_Some by eauto. done.
  - rewrite map_size_insert_None by done. lia.
  - rewrite map_size_insert_None by done.
    assert (Z.of_nat (base.size d) ≠ cap); [|lia].
    intros <-. unfold int_sub in *. by rewrite Z.sub_diag in *.
  - pose proof (map_size_delete k d) as Hs. destruct (d !! k); unfold id in Hs; lia.
Qed.

Lemma effect_refl w : effect w w.
Proof. repeat split. constructor. Qed.

Lemma effect_frame w w' : effect w w' → frame w w'.
Proof.
  intros (Hc & Hp & Ha & Ht). repeat split; try done.
  unfold bounded. rewrite Hc. by apply table_change_bounded.
Qed.

Lemma frame_refl w : frame w w.
Proof. by repeat split. Qed.

Lemma frame_trans w1 w2 w3 : frame w1 w2 → frame w2 w3 → frame w1 w3.
Proof.
  intros (Hc & Hp & Ha & Hb) (Hc' & Hp' & Ha' & Hb').
  repeat split; try congruence. auto.
Qed.

Lemma effect_grow ext w : effect w (grow ext w).
Proof. repeat split. constructor. Qed.

Ltac split_effect := unfold effect; cbn; repeat split.

Lemma Get_effect key w : effect w (Get key w).2.
Proof.
  unfold_ops. sym_exec.
  destruct (data (cache w) !! key_of (heap w) key); sym_exec.
  - split_effect. constructor.
  - unfold on_db. cbn. destruct (pebble_Get _ _) as [[[]|] ?]; sym_exec;
      split_effect; constructor.
Qed.

Lemma Set_effect key val addToCache w : effect w (Set_ key val addToCache w).2.
Proof.
  unfold_ops. sym_exec.
  destruct (data (cache w) !! key_of (heap w) key) as [e|] eqn:Hd; sym_exec.
  - rewrite (alter_Some _ _ (data (cache w)) e) by done.
    rewrite !alter_insert_eq. split_effect. by econstructor.
  - destruct addToCache; cbn.
    + destruct (len_data (data (cache w)) <? capacity (cache w)) eqn:Hc;
        sym_exec.
      * split_effect. apply change_admit; [done | by apply Z.ltb_lt].
      * unfold on_db. cbn. destruct (pebble_Set _ _ _ _) as [[] ?]; sym_exec;
          split_effect; constructor.
    + unfold on_db. cbn. destruct (pebble_Set _ _ _ _) as [[] ?]; sym_exec;
        split_effect; constructor.
Qed.

Lemma Evict_effect key w : effect w (Evict key w).2.
Proof.
  unfold_ops. sym_exec.
  destruct (data (cache w) !! key_of (heap w) key) as [e|] eqn:Hd; sym_exec.
  - unfold on_db. cbn. destruct (pebble_Set _ _ _ _) as [[] ?]; sym_exec;
      split_effect; constructor.
  - split_effect. constructor.
Qed.

Lemma RemainingCapacity_effect w : effect w (RemainingCapacity w).2.
Proof. apply effect_refl. Qed.

Lemma Close_effect w : effect w (Close w).2.
Proof.
  unfold_ops. unfold on_db. destruct (pebble_Close _) as [? ?].
  split_effect. constructor.
Qed.

Lemma alloc_effect bs w : effect w (alloc bs w).2.
Proof. split_effect. constructor. Qed.

Lemma caller_write_effect s i x w : effect w (caller_write s i x w).
Proof.
  unfold caller_write. destruct (write _ _ _ _); split_effect; constructor.
Qed.

(** A round of [Prefetch] leaves the statistics alone and either keeps the
    table or adds the key where it was absent. *)
Lemma round_effect k s w :
  effect w (prefetch_round k s w).2 ∧
  stats (cache (prefetch_round k s w).2) = stats (cache w) ∧
  (data (cache (prefetch_round k s w).2) = data (cache w) ∨
   ∃ e, data (cache w) !! k = None ∧
        int_sub (capacity (cache w)) (len_data (data (cache w))) ≠ 0 ∧
        data (cache (prefetch_round k s w).2) = <[k := e]> (data (cache w))).
Proof.
  unfold_ops. sym_exec.
  destruct (data (cache w) !! k) as [e|] eqn:Hd; sym_exec.
  { split; [apply effect_refl|]. auto. }
  unfold on_db. cbn. destruct (pebble_Get _ _) as [[[]|val] ?]; sym_exec.
  1,2: split; [split_effect; constructor | auto].
  rewrite Hd. sym_exec.
  destruct (int_sub _ _ =? 0) eqn:Hrc; sym_exec.
  { split; [split_effect; constructor | auto]. }
  apply Z.eqb_neq in Hrc. split; [|split; [done|]].
  - split_effect. by apply change_fill.
  - right. eauto.
Qed.

(** ** De-duplication *)

Lemma dedup_loop_grow keys seen acc w :
  ∃ ext, (dedup_loop keys seen acc w).2 = grow ext w.
Proof.
  revert seen acc w. induction keys as [|kb rest IH]; intros seen acc w.
  - exists []. cbn. by rewrite grow_nil.
  - cbn [dedup_loop]. unfold bind. rewrite makeKey_eq.
    destruct (decide _);
      [destruct (IH seen acc (grow (fresh_ext (read (heap w) kb)) w)) as [ext ->]
      |destruct (IH ({[key_of (heap w) kb]} ∪ seen)
                    (acc ++ [key_of (heap w) kb])
                    (grow (fresh_ext (read (heap w) kb)) w)) as [ext ->]];
      rewrite grow_grow; by eexists.
Qed.

Lemma dedup_loop_eq keys seen acc w :
  Forall (valid (heap w)) keys →
  ∃ ext,
    dedup_loop keys seen acc w =
      (dedup_keys (key_of (heap w) <$> keys) seen acc, grow ext w).
Proof.
  revert seen acc w. induction keys as [|kb rest IH]; intros seen acc w Hv.
  - exists []. cbn. by rewrite grow_nil.
  - apply Forall_cons in Hv as [Hkb Hrest].
    cbn [dedup_loop fmap list_fmap dedup_keys]. unfold bind.
    rewrite makeKey_eq.
    set (w1 := grow (fresh_ext (read (heap w) kb)) w).
    assert (Forall (valid (heap w1)) rest) as Hv1.
    { eapply Forall_impl; [exact Hrest|]. intros s. apply valid_grow. }
    assert (key_of (heap w1) <$> rest = key_of (heap w) <$> rest) as Hk1.
    { apply Forall_fmap_ext. eapply Forall_impl; [exact Hrest|].
      intros s Hs. unfold key_of. cbn. by rewrite read_grow. }
    destruct (decide _).
    + destruct (IH seen acc w1 Hv1) as [ext ->].
      rewrite Hk1. unfold w1. rewrite grow_grow. by eexists.
    + destruct (IH ({[key_of (heap w) kb]} ∪ seen)
                  (acc ++ [key_of (heap w) kb]) w1 Hv1) as [ext ->].
      rewrite Hk1. unfold w1. rewrite grow_grow. by eexists.
Qed.

Lemma dedup_keys_spec ks seen acc :
  dedup_keys ks seen acc = acc ++ filter (λ y, y ∉ seen) (dedup_first ks).
Proof.
  revert seen acc. induction ks as [|x rest IH]; intros seen acc.
  - cbn. by rewrite app_nil_r.
  - cbn [dedup_keys dedup_first]. destruct (decide (x ∈ seen)) as [Hx|Hx].
    + rewrite IH. f_equal. rewrite filter_cons_False by auto.
      rewrite list_filter_filter. apply list_filter_iff.
      intros y. split; [|by intros [? _]]. intros Hy. split; [done|].
      by intros ->.
    + rewrite IH. rewrite <- app_assoc. f_equal.
      rewrite filter_cons_True by done. cbn. f_equal.
      rewrite list_filter_filter. apply list_filter_iff.
      intros y. set_solver.
Qed.

Lemma dedup_keys_first ks : dedup_keys ks ∅ [] = dedup_first ks.
Proof.
  rewrite dedup_keys_spec. cbn.
  induction (dedup_first ks) as [|x l IH]; [done|].
  rewrite filter_cons_True by set_solver. by rewrite IH.
Qed.

Example dedup_first_sample :
  dedup_first ["a"; "b"; "a"; "c"; "b"]%string = ["a"; "b"; "c"]%string.
Proof. reflexivity. Qed.

Lemma elem_of_dedup_first x l : x ∈ dedup_first l ↔ x ∈ l.
Proof.
  induction l as [|y l IH]; cbn; [done|].
  rewrite !elem_of_cons, list_elem_of_filter, IH.
  destruct (decide (x = y)); naive_solver.
Qed.

Lemma NoDup_dedup_first l : NoDup (dedup_first l).
Proof.
  induction l as [|y l IH]; cbn; [constructor|].
  apply NoDup_cons. split.
  - rewrite list_elem_of_filter. naive_solver.
  - by apply NoDup_filter.
Qed.

(** ** The loops of [Prefetch] and sequences of calls *)

Lemma bounded_free w :
  bounded w →
  int_sub (capacity (cache w)) (len_data (data (cache w))) ≠ 0 →
  len_data (data (cache w)) < capacity (cache w).
Proof.
  unfold bounded. intros Hb Hrc.
  assert (len_data (data (cache w)) ≠ capacity (cache w)); [|lia].
  intros E. apply Hrc. rewrite E. unfold int_sub. by rewrite Z.sub_diag.
Qed.

(** The second loop of [Prefetch]: the statistics are untouched, no entry
    is removed or altered, and the table only grows from a state with room
    left. *)
Lemma prefetch_loop_effect ks s w :
  frame w (prefetch_loop ks s w).2 ∧
  stats (cache (prefetch_loop ks s w).2) = stats (cache w) ∧
  data (cache w) ⊆ data (cache (prefetch_loop ks s w).2) ∧
  (bounded w →
   data (cache (prefetch_loop ks s w).2) ≠ data (cache w) →
   len_data (data (cache w)) < capacity (cache w)).
Proof.
  revert s w. induction ks as [|k rest IH]; intros s w.
  { cbn. split; [apply frame_refl|]. split; [done|]. split; [done|].
    by intros _ []. }
  cbn [prefetch_loop]. unfold bind.
  destruct (round_effect k s w) as (He & Hs & Hd).
  destruct (prefetch_round k s w) as [r w1]. cbn [snd] in *.
  pose proof (effect_frame _ _ He) as Hf.
  assert (data (cache w) ⊆ data (cache w1)) as Hsub.
  { destruct Hd as [-> | (e & Hk & _ & ->)]; [done|].
    by apply insert_subseteq. }
  destruct r as [s1 | s1 err].
  - destruct (IH s1 w1) as (Hf' & Hs' & Hsub' & Hroom').
    split; [by eapply frame_trans|]. split; [congruence|].
    split; [by etrans|].
    intros Hb Hne. destruct Hd as [E | (e & _ & Hrc & _)].
    + destruct He as (Hc & _). rewrite <- Hc, <- E. apply Hroom'.
      * by apply Hf.
      * by rewrite E.
    + by apply bounded_free.
  - cbn. split; [done|]. split; [done|]. split; [done|].
    intros Hb Hne. destruct Hd as [E | (e & _ & Hrc & _)]; [done|].
    by apply bounded_free.
Qed.

Lemma Prefetch_effect keys w :
  frame w (Prefetch keys w).2 ∧
  stats (cache (Prefetch keys w).2) = stats (cache w) ∧
  data (cache w) ⊆ data (cache (Prefetch keys w).2) ∧
  (bounded w →
   data (cache (Prefetch keys w).2) ≠ data (cache w) →
   len_data (data (cache w)) < capacity (cache w)).
Proof.
  unfold Prefetch, bind.
  destruct (dedup_loop_grow keys ∅ [] w) as [ext Hg].
  destruct (dedup_loop keys ∅ [] w) as [ks w1]. cbn [snd] in Hg. subst w1.
  apply (prefetch_loop_effect ks 0 (grow ext w)).
Qed.

Create HintDb cache_effects.

#[local] Hint Resolve effect_frame Get_effect Set_effect Evict_effect
  RemainingCapacity_effect Close_effect alloc_effect caller_write_effect
  : cache_effects.

Lemma exec_frame c w : frame w (exec c w).
Proof.
  destruct c; cbn [exec]; auto with cache_effects.
  apply Prefetch_effect.
Qed.

Lemma run_frame cs w : frame w (run cs w).
Proof.
  revert w. induction cs as [|c cs IH]; intros w; [apply frame_refl|].
  cbn. eapply frame_trans; [apply exec_frame | apply IH].
Qed.

(** * Main theorems *)

Lemma no_fault_faults d1 d2 : faults d1 = faults d2 → no_fault d1 → no_fault d2.
Proof. unfold no_fault, next_fault. intros ->. by destruct (faults d2). Qed.

Lemma table_change_room cap d d' k :
  table_change cap d d' → len_data d <= cap →
  d !! k = None → is_Some (d' !! k) → len_data d < cap.
Proof.
  intros [] Hb Hk [x Hx].
  - congruence.
  - rewrite lookup_insert in Hx. case_decide; congruence.
  - done.
  - assert (len_data d ≠ cap); [|lia].
    intros E. rewrite E in *. unfold int_sub in *. by rewrite Z.sub_diag in *.
  - rewrite lookup_delete in Hx. case_decide; congruence.
Qed.

(** C1: a cache made with a positive capacity never holds more entries
    than that capacity, whatever its clients do; [Set] and [Prefetch] put
    a new key into the table only from a state with fewer than [capacity]
    entries. *)
Theorem capacity_invariant (h : Heap) (clk : nat → Time) (d : DB) (cap : Z)
    (cs : list Call) :
  0 < cap →
  let w := run cs (start h clk d cap) in
  capacity (cache w) = cap ∧
  len_data (data (cache w)) <= cap ∧
  (∀ key val addToCache k,
     data (cache w) !! k = None →
     is_Some (data (cache (Set_ key val addToCache w).2) !! k) →
     len_data (data (cache w)) < cap) ∧
  (∀ k s k',
     data (cache w) !! k' = None →
     is_Some (data (cache (prefetch_round k s w).2) !! k') →
     len_data (data (cache w)) < cap) ∧
  (∀ keys k,
     data (cache w) !! k = None →
     is_Some (data (cache (Prefetch keys w).2) !! k) →
     len_data (data (cache w)) < cap).
Proof.
  intros Hcap w.
  destruct (run_frame cs (start h clk d cap)) as (Hc & _ & _ & Hb).
  fold w in Hc, Hb. cbn in Hc.
  assert (bounded w) as Hbw.
  { apply Hb. unfold bounded. cbn. unfold len_data.
    rewrite map_size_empty. lia. }
  unfold bounded in Hbw. rewrite Hc in Hbw.
  split; [done|]. split; [done|]. split; [|split].
  - intros key val addToCache k Hk Hk'.
    destruct (Set_effect key val addToCache w) as (_ & _ & _ & Ht).
    rewrite Hc in Ht. by eapply table_change_room.
  - intros k s k' Hk Hk'.
    destruct (round_effect k s w) as ((_ & _ & _ & Ht) & _).
    rewrite Hc in Ht. by eapply table_change_room.
  - intros keys k Hk Hk'.
    destruct (Prefetch_effect keys w) as (_ & _ & _ & Hroom).
    rewrite <- Hc. apply Hroom.
    + unfold bounded. by rewrite Hc.
    + intros E. rewrite E, Hk in Hk'. by destruct Hk'.
Qed.

(** C10: no operation of the cache, and nothing a client does, changes
    the [prefetches] or the [additions] counter; both are zero in every
    state a cache can reach. *)
Theorem prefetches_additions_stay_zero (h : Heap) (clk : nat → Time) (d : DB)
    (cap : Z) (cs : list Call) :
  (∀ c w,
     prefetches (stats (cache (exec c w))) = prefetches (stats (cache w)) ∧
     additions (stats (cache (exec c w))) = additions (stats (cache w))) ∧
  prefetches (stats (cache (run cs (start h clk d cap)))) = 0 ∧
  additions (stats (cache (run cs (start h clk d cap)))) = 0.
Proof.
  split.
  - intros c w. by destruct (exec_frame c w) as (_ & Hp & Ha & _).
  - by destruct (run_frame cs (start h clk d cap)) as (_ & Hp & Ha & _).
Qed.

Lemma key_of_grow h ext s : valid h s → key_of (h ++ ext) s = key_of h s.
Proof. intros H. unfold key_of. by rewrite read_grow. Qed.

(** C9 (as amended): for a key that is in neither the table nor the store,
    with the store answering the lookup, [Get] returns [(nil, false, nil)],
    leaves the table as it is, and counts one miss: [cache_misses] and the
    combined [cache_accesses] each go up by one ([++] on [int]); no other
    counter moves. *)
Theorem get_absent_key (key : Slice) (w : World) :
  valid (heap w) key →
  data (cache w) !! key_of (heap w) key = None →
  kv (db (cache w)) !! read (heap w) key = None →
  no_fault (db (cache w)) →
  ∃ w',
    Get key w = ((SNil, false, None), w') ∧
    data (cache w') = data (cache w) ∧
    stats (cache w') = CacheMiss (stats (cache w)) ∧
    cache_misses (stats (cache w')) = int_add (cache_misses (stats (cache w))) 1 ∧
    cache_accesses (stats (cache w')) =
      int_add (cache_accesses (stats (cache w))) 1 ∧
    cache_hits (stats (cache w')) = cache_hits (stats (cache w)) ∧
    evictions (stats (cache w')) = evictions (stats (cache w)) ∧
    prefetches (stats (cache w')) = prefetches (stats (cache w)) ∧
    additions (stats (cache w')) = additions (stats (cache w)) ∧
    (is_int (cache_misses (stats (cache w))) →
     cache_misses (stats (cache w)) < int_max →
     cache_misses (stats (cache w')) = cache_misses (stats (cache w)) + 1).
Proof.
  intros Hv Hd Hkv Hf.
  destruct (Get_miss_notfound key w Hd Hv Hf Hkv) as [ext ->].
  eexists. split; [reflexivity|]. cbn.
  repeat (split; [reflexivity|]).
  intros Hi Hm. by apply int_incr.
Qed.

(** C3: [Evict] of a key that is not resident returns [(false, nil)] and
    leaves the cache as it is.  For a resident key it deletes the entry,
    writes the entry's bytes under the key with a [Sync] write and then
    counts an eviction, returning [(true, nil)]; a second [Evict] of the
    key right after returns [(false, nil)].  When the write fails it
    returns [(false, err)]: the entry is gone from the table, the store is
    unchanged and no eviction is counted. *)
Theorem evict_behaviour (key : Slice) (w : World) :
  valid (heap w) key →
  let k := key_of (heap w) key in
  (data (cache w) !! k = None →
   ∃ w', Evict key w = ((false, None), w') ∧ cache w' = cache w) ∧
  (∀ e, data (cache w) !! k = Some e →
        valid (heap w) (value e) →
        no_fault (db (cache w)) →
        ∃ w' w'',
          Evict key w = ((true, None), w') ∧
          data (cache w') = delete k (data (cache w)) ∧
          kv (db (cache w')) =
            <[read (heap w) key := read (heap w) (value e)]>
              (kv (db (cache w))) ∧
          synced (db (cache w')) = kv (db (cache w')) ∧
          stats (cache w') = CacheEvict (stats (cache w)) ∧
          evictions (stats (cache w')) =
            int_add (evictions (stats (cache w))) 1 ∧
          Evict key w' = ((false, None), w'') ∧
          cache w'' = cache w') ∧
  (∀ e n, data (cache w) !! k = Some e →
          fault (db (cache w)) n →
          ∃ w',
            Evict key w = ((false, Some (ErrStore n)), w') ∧
            data (cache w') = delete k (data (cache w)) ∧
            data (cache w') !! k = None ∧
            kv (db (cache w')) = kv (db (cache w)) ∧
            synced (db (cache w')) = synced (db (cache w)) ∧
            stats (cache w') = stats (cache w)).
Proof.
  intros Hv k. split; [|split].
  - intros Hd. destruct (Evict_absent key w Hd) as [ext ->]. by eexists.
  - intros e Hd He Hf.
    destruct (Evict_ok key w e Hd He Hf) as [ext ->].
    set (w' := mkWorld _ _ _ _).
    assert (data (cache w') !! key_of (heap w') key = None) as Hd'.
    { cbn. rewrite key_of_grow by done. apply lookup_delete_eq. }
    destruct (Evict_absent key w' Hd') as [ext' Hev].
    exists w'. eexists. repeat (split; [reflexivity|]).
    split; [exact Hev | reflexivity].
  - intros e n Hd Hf.
    destruct (Evict_fault key w e n Hd Hf) as [ext ->].
    eexists. split; [reflexivity|]. cbn.
    split; [done|]. split; [apply lookup_delete_eq|].
    by rewrite kv_after_call, synced_after_call.
Qed.

(** C6: [Set] on a resident key, whatever [addToCache] says, keeps the
    entry in the table and rewrites it in place: its bytes become those of
    [val] and [size] their number, [last_updated] becomes the reading of
    the clock, [first_inserted] stays; one hit is counted, the store is
    not touched, and the result is [(true, nil)]. *)
Theorem set_resident_key (key val : Slice) (addToCache : bool) (w : World)
    (e : CacheEntry) :
  valid (heap w) val →
  data (cache w) !! key_of (heap w) key = Some e →
  ∃ w' e',
    Set_ key val addToCache w = ((true, None), w') ∧
    data (cache w') = <[key_of (heap w) key := e']> (data (cache w)) ∧
    dom (data (cache w')) = dom (data (cache w)) ∧
    read (heap w') (value e') = read (heap w) val ∧
    size e' = Z.of_nat (length (read (heap w) val)) ∧
    last_updated e' = clock w (ticks w) ∧
    ticks w' = S (ticks w) ∧
    first_inserted e' = first_inserted e ∧
    stats (cache w') = CacheHit (stats (cache w)) ∧
    cache_hits (stats (cache w')) = int_add (cache_hits (stats (cache w))) 1 ∧
    evictions (stats (cache w')) = evictions (stats (cache w)) ∧
    db (cache w') = db (cache w).
Proof.
  intros Hv Hd.
  destruct (Set_resident key val addToCache w e Hd Hv)
    as (ext & v & -> & Hr & _ & _).
  eexists _, _. split; [reflexivity|]. cbn.
  split; [done|]. split.
  { rewrite dom_insert_L. apply elem_of_dom_2 in Hd. set_solver. }
  split; [done|]. split; [by rewrite len_read|]. done.
Qed.

(** After [Set(key, val, true)] with room in the table the key is
    resident, with the bytes of [val]. *)
Lemma Set_true_room key val w :
  valid (heap w) val →
  len_data (data (cache w)) < capacity (cache w) →
  ∃ w1 ext e,
    Set_ key val true w = ((true, None), w1) ∧
    heap w1 = heap w ++ ext ∧
    db (cache w1) = db (cache w) ∧
    data (cache w1) !! key_of (heap w) key = Some e ∧
    read (heap w1) (value e) = read (heap w) val ∧
    valid (heap w1) (value e).
Proof.
  intros Hv Hc.
  destruct (data (cache w) !! key_of (heap w) key) as [e|] eqn:Hd.
  - destruct (Set_resident key val true w e Hd Hv)
      as (ext & v & -> & Hr & Hvv & _).
    eexists _, ext, _. split; [reflexivity|]. cbn.
    split; [done|]. split; [done|]. split; [apply lookup_insert_eq|]. done.
  - destruct (Set_admit key val w Hd Hc Hv) as [ext ->].
    eexists _, ext, _. split; [reflexivity|]. cbn.
    split; [done|]. split; [done|]. split; [apply lookup_insert_eq|]. cbn.
    split; [by apply read_grow | by apply valid_grow].
Qed.

(** C2: [Set(K, V, true)] with room in the table, then [Evict(K)], then
    [Get(K)], the store failing neither the write nor the read: each call
    succeeds, after the eviction the key is no longer in the table and the
    store holds the bytes of [V] under it, durably, and [Get] returns
    those bytes with [found = true] and no error. *)
Theorem set_evict_get (key val : Slice) (w : World) :
  valid (heap w) key →
  valid (heap w) val →
  len_data (data (cache w)) < capacity (cache w) →
  no_fault (db (cache w)) →
  no_fault (after_call (db (cache w))) →
  ∃ w1 w2 w3 s,
    Set_ key val true w = ((true, None), w1) ∧
    Evict key w1 = ((true, None), w2) ∧
    Get key w2 = ((s, true, None), w3) ∧
    read (heap w3) s = read (heap w) val ∧
    data (cache w2) !! key_of (heap w) key = None ∧
    kv (db (cache w2)) !! read (heap w) key = Some (read (heap w) val) ∧
    synced (db (cache w2)) !! read (heap w) key = Some (read (heap w) val).
Proof.
  intros Hk Hv Hc Hf1 Hf2.
  destruct (Set_true_room key val w Hv Hc)
    as (w1 & ext1 & e & HS & Hh1 & Hdb1 & He & Hr & Hve).
  assert (valid (heap w1) key) as Hk1 by (rewrite Hh1; by apply valid_grow).
  assert (key_of (heap w1) key = key_of (heap w) key) as Hkey1
    by (rewrite Hh1; by apply key_of_grow).
  assert (read (heap w1) key = read (heap w) key) as Hrk1
    by (rewrite Hh1; by apply read_grow).
  destruct (Evict_ok key w1 e) as [ext2 HE].
  { by rewrite Hkey1. } { done. } { by rewrite Hdb1. }
  set (w2 := mkWorld _ _ _ _) in HE.
  destruct (Get_miss_found key w2 (read (heap w) val)) as (ext3 & s & HG & Hs & _).
  { cbn. rewrite key_of_grow, Hkey1 by done. apply lookup_delete_eq. }
  { cbn. by apply valid_grow. }
  { cbn. eapply no_fault_faults; [|exact Hf2].
    cbn. by rewrite faults_after_call, Hdb1. }
  { cbn. rewrite read_grow by done. rewrite Hrk1, Hr. apply lookup_insert_eq. }
  eexists w1, w2, _, s. split; [done|]. split; [done|].
  split; [exact HG|]. cbn. split; [done|].
  rewrite Hkey1, Hrk1, Hr. split; [apply lookup_delete_eq|].
  split; apply lookup_insert_eq.
Qed.

(** C4: [Set] of a key that is not resident, when admission is declined or
    the table is full, leaves the table as it is and writes the pair to
    the store with a [Sync] write.  When the write succeeds the result is
    [(false, nil)], the value is in the store and durable, and a [Get] of
    the key whose read does not fail returns it with [found = true]; when
    the write fails the result is [(false, err)]. *)
Theorem set_bypasses_table (key val : Slice) (addToCache : bool) (w : World) :
  valid (heap w) key →
  valid (heap w) val →
  data (cache w) !! key_of (heap w) key = None →
  addToCache = false ∨ capacity (cache w) <= len_data (data (cache w)) →
  (no_fault (db (cache w)) →
   ∃ w1,
     Set_ key val addToCache w = ((false, None), w1) ∧
     data (cache w1) = data (cache w) ∧
     kv (db (cache w1)) =
       <[read (heap w) key := read (heap w) val]> (kv (db (cache w))) ∧
     synced (db (cache w1)) = kv (db (cache w1)) ∧
     (no_fault (db (cache w1)) →
      ∃ s w2,
        Get key w1 = ((s, true, None), w2) ∧
        read (heap w2) s = read (heap w) val)) ∧
  (∀ n, fault (db (cache w)) n →
        ∃ w1,
          Set_ key val addToCache w = ((false, Some (ErrStore n)), w1) ∧
          data (cache w1) = data (cache w) ∧
          kv (db (cache w1)) = kv (db (cache w))).
Proof.
  intros Hk Hv Hd Hc. split.
  - intros Hf. destruct (Set_store_ok key val addToCache w Hd Hc Hk Hv Hf)
      as [ext ->].
    set (w1 := mkWorld _ _ _ _).
    exists w1. do 4 (split; [reflexivity|]). intros Hf1.
    destruct (Get_miss_found key w1 (read (heap w) val)) as (ext3 & s & HG & Hs & _).
    { cbn. by rewrite key_of_grow. }
    { cbn. by apply valid_grow. }
    { done. }
    { cbn. rewrite read_grow by done. apply lookup_insert_eq. }
    by eexists _, _.
  - intros n Hf. destruct (Set_store_fault key val addToCache w n Hd Hc Hf)
      as [ext ->].
    eexists. split; [reflexivity|]. cbn. split; [done|]. apply kv_after_call.
Qed.

Lemma fault_free_no_fault d : fault_free d → no_fault d.
Proof.
  unfold fault_free, no_fault, next_fault.
  destruct (faults d) as [|f fs]; [done|]. by intros [-> _]%Forall_cons.
Qed.

Lemma fault_free_after_call d : fault_free d → fault_free (after_call d).
Proof.
  unfold fault_free. rewrite faults_after_call.
  destruct (faults d) as [|f fs]; [done|]. by intros [_ ?]%Forall_cons.
Qed.

(** With no room left the second loop of [Prefetch] leaves the table as
    it is. *)
Lemma prefetch_loop_full ks s w :
  int_sub (capacity (cache w)) (len_data (data (cache w))) = 0 →
  data (cache (prefetch_loop ks s w).2) = data (cache w).
Proof.
  revert s w. induction ks as [|k rest IH]; intros s w Hrc; [done|].
  cbn [prefetch_loop]. unfold bind.
  destruct (round_effect k s w) as ((Hc & _) & _ & Hd).
  destruct (prefetch_round k s w) as [r w1]. cbn [snd] in *.
  destruct Hd as [Hd | (e & _ & Hne & _)]; [|done].
  destruct r as [s1 | s1 err]; [|done].
  rewrite IH; [done|]. by rewrite Hc, Hd.
Qed.

(** With no room left, keys that are not resident and are in the store
    are read and skipped: the count does not move and there is no error. *)
Lemma prefetch_loop_full_skips ks s w :
  int_sub (capacity (cache w)) (len_data (data (cache w))) = 0 →
  Forall (λ k, data (cache w) !! k = None ∧
               is_Some (kv (db (cache w)) !! list_byte_of_string k)) ks →
  fault_free (db (cache w)) →
  (prefetch_loop ks s w).1 = (s, None).
Proof.
  revert s w. induction ks as [|k rest IH]; intros s w Hrc Hks Hff; [done|].
  apply Forall_cons in Hks as [[Hk [v Hv]] Hrest].
  cbn [prefetch_loop]. unfold bind.
  destruct (round_full k s w v Hk (fault_free_no_fault _ Hff) Hv Hrc)
    as [ext ->].
  apply IH; cbn.
  - done.
  - by rewrite kv_after_call.
  - by apply fault_free_after_call.
Qed.

(** C7: [Prefetch] removes nothing from the table: every entry is still
    there afterwards, unchanged.  With no remaining capacity the table is
    exactly as before; a key found in the store is then skipped by its
    round, with no error and the count as it was, and a [Prefetch] of keys
    that are only in the store returns [(0, nil)].  A table holding
    [capacity] entries has no remaining capacity. *)
Theorem prefetch_keeps_entries (keys : list Slice) (w : World) :
  data (cache w) ⊆ data (cache (Prefetch keys w).2) ∧
  (∀ k, is_Some (data (cache w) !! k) →
        is_Some (data (cache (Prefetch keys w).2) !! k)) ∧
  (len_data (data (cache w)) = capacity (cache w) →
   (RemainingCapacity w).1 = 0) ∧
  ((RemainingCapacity w).1 = 0 →
   data (cache (Prefetch keys w).2) = data (cache w) ∧
   (∀ k s v,
      data (cache w) !! k = None →
      no_fault (db (cache w)) →
      kv (db (cache w)) !! list_byte_of_string k = Some v →
      ∃ w', prefetch_round k s w = (Continue s, w') ∧
            data (cache w') = data (cache w)) ∧
   (Forall (valid (heap w)) keys →
    Forall (λ key, data (cache w) !! key_of (heap w) key = None ∧
                   is_Some (kv (db (cache w)) !! read (heap w) key)) keys →
    fault_free (db (cache w)) →
    (Prefetch keys w).1 = (0, None))).
Proof.
  destruct (Prefetch_effect keys w) as (_ & _ & Hsub & _).
  split; [done|]. split.
  { intros k [e He]. exists e. by eapply lookup_weaken. }
  cbn [RemainingCapacity bind get_capacity get_data ret fst].
  split.
  { intros ->. unfold int_sub. by rewrite Z.sub_diag. }
  intros Hrc. split; [|split].
  - unfold Prefetch, bind.
    destruct (dedup_loop_grow keys ∅ [] w) as [ext Hg].
    destruct (dedup_loop keys ∅ [] w) as [ks w1]. cbn [snd] in Hg. subst w1.
    by rewrite prefetch_loop_full.
  - intros k s v Hk Hf Hv.
    destruct (round_full k s w v Hk Hf Hv Hrc) as [ext ->]. by eexists.
  - intros Hval Hks Hff. unfold Prefetch, bind.
    destruct (dedup_loop_eq keys ∅ [] w Hval) as [ext ->].
    rewrite dedup_keys_first. apply prefetch_loop_full_skips; cbn; try done.
    apply Forall_forall. intros k Hk. rewrite elem_of_dedup_first in Hk.
    apply list_elem_of_fmap in Hk as (key & -> & Hkey).
    rewrite Forall_forall in Hks. rewrite bytes_of_key. by apply Hks.
Qed.

(** Where one round of [Prefetch] leaves the count. *)
Lemma round_count k s w :
  let r := (prefetch_round k s w).1 in
  let w' := (prefetch_round k s w).2 in
  (r = Continue (int_add s 1) ∧ is_Some (data (cache w') !! k)) ∨
  (r = Continue s ∧ data (cache w') !! k = None) ∨
  (∃ err, r = Return s err).
Proof.
  unfold_ops. sym_exec.
  destruct (data (cache w) !! k) as [e|] eqn:Hd; sym_exec; [by left; eauto|].
  unfold on_db. cbn. destruct (pebble_Get _ _) as [[[]|val] ?]; sym_exec;
    [by right; left | by right; right; eauto |].
  rewrite Hd. sym_exec.
  destruct (int_sub _ _ =? 0); sym_exec; [by right; left|].
  left. split; [done|]. rewrite lookup_insert_eq. eauto.
Qed.

(** Keys that enter the table during the second loop of [Prefetch] are
    keys of the loop. *)
Lemma prefetch_loop_adds ks s w k' :
  is_Some (data (cache (prefetch_loop ks s w).2) !! k') →
  is_Some (data (cache w) !! k') ∨ k' ∈ ks.
Proof.
  revert s w. induction ks as [|k rest IH]; intros s w; [by left|].
  cbn [prefetch_loop]. unfold bind.
  destruct (round_effect k s w) as (_ & _ & Hd).
  destruct (prefetch_round k s w) as [r w1]. cbn [snd] in Hd.
  assert (is_Some (data (cache w1) !! k') →
          is_Some (data (cache w) !! k') ∨ k' ∈ k :: rest) as H1.
  { destruct Hd as [-> | (e & _ & _ & ->)]; [by left|].
    rewrite lookup_insert. case_decide; [subst; right; left | by left]. }
  destruct r as [s1 | s1 err]; [|done].
  intros H. destruct (IH s1 w1 H) as [H' | H']; [by apply H1|].
  right. by right.
Qed.

Lemma count_resident_cons d k ks :
  count_resident d (k :: ks) =
  (if decide (is_Some (d !! k)) then 1 else 0) + count_resident d ks.
Proof.
  unfold count_resident. rewrite filter_cons.
  destruct (decide (is_Some (d !! k))); cbn [length]; lia.
Qed.

Lemma prefetch_loop_counts_residents ks s w n :
  NoDup ks →
  0 <= s → s + Z.of_nat (length ks) <= int_max →
  (prefetch_loop ks s w).1 = (n, None) →
  n = s + count_resident (data (cache (prefetch_loop ks s w).2)) ks.
Proof.
  revert s w. induction ks as [|k rest IH]; intros s w Hnd H0 Hmax.
  { cbn. intros [= <-]. unfold count_resident. cbn. lia. }
  apply NoDup_cons in Hnd as [Hk Hnd].
  cbn [prefetch_loop length] in *. unfold bind.
  pose proof (round_count k s w) as Hr. cbv zeta in Hr.
  pose proof (prefetch_loop_effect rest) as Hmono.
  pose proof (prefetch_loop_adds rest) as Hadds.
  destruct (prefetch_round k s w) as [r w1]. cbn [fst snd] in Hr.
  assert (int_add s 1 = s + 1) as Hs1.
  { apply int_incr; unfold is_int, int_min, int_max in *; lia. }
  rewrite count_resident_cons.
  destruct Hr as [[-> Hres] | [[-> Hnot] | [err ->]]]; [| |done].
  - rewrite Hs1. intros Hn.
    specialize (IH (s + 1) w1 Hnd ltac:(lia) ltac:(lia) Hn).
    destruct (Hmono (s + 1) w1) as (_ & _ & Hsub & _).
    rewrite decide_True; [lia|].
    destruct Hres as [e He]. exists e. by eapply lookup_weaken.
  - intros Hn. specialize (IH s w1 Hnd H0 ltac:(lia) Hn).
    rewrite decide_False; [lia|].
    intros Hsome. destruct (Hadds s w1 k Hsome) as [H' | H']; [|done].
    rewrite Hnot in H'. by destruct H'.
Qed.

Lemma length_dedup_first l : (length (dedup_first l) ≤ length l)%nat.
Proof.
  induction l as [|x l IH]; cbn; [done|].
  pose proof (length_filter (λ y, y ≠ x) (dedup_first l)). lia.
Qed.

(** The second loop of [Prefetch] over a list in two parts: the second
    part is run from where the first one ends, unless the first one has
    returned an error. *)
Lemma prefetch_loop_app ks1 ks2 s w :
  prefetch_loop (ks1 ++ ks2) s w =
  match prefetch_loop ks1 s w with
  | ((s1, None), w1) => prefetch_loop ks2 s1 w1
  | r => r
  end.
Proof.
  revert s w. induction ks1 as [|k rest IH]; intros s w; [done|].
  cbn [app prefetch_loop]. unfold bind.
  destruct (prefetch_round k s w) as [[s1|s1 err] w1]; [apply IH | done].
Qed.

Lemma dedup_first_twice (k1 k2 : string) :
  k1 ≠ k2 → dedup_first [k1; k1; k2] = [k1; k2].
Proof.
  intros Hne. cbn [dedup_first].
  rewrite filter_nil, (filter_cons_True _ k2) by done.
  rewrite filter_nil, (filter_cons_False _ k1) by auto.
  by rewrite (filter_cons_True _ k2) by congruence.
Qed.

(** C8: [Prefetch] runs its second loop, from a count of zero, over the
    keys of its input without their repetitions, each at the place of its
    first occurrence.  A round on a resident key adds one to the count and
    touches nothing, the store included; on a key the store does not have
    it keeps the count and raises no error; on a key the store has, with
    room in the table, it inserts the entry and adds one.  A store error
    ends the loop at once with the count so far and that error.
    [Prefetch([K1, K1, K2])], [K1] resident, [K2] only in the store, room
    left, returns [(2, nil)].

    The loop itself: on no key it returns the count with a nil error;
    after a round that does not fail it goes on with the remaining keys
    from the world the round leaves (the same world for a resident key,
    the store's schedule advanced for a key it does not have or cannot
    place, the entry inserted for a key it admits); a list in two parts
    is run part after part, so that an error at any key ends it there.
    With a nil error the count is the number of distinct keys of the
    input that are resident afterwards. *)
Theorem prefetch_protocol (keys : list Slice) (w : World) :
  Forall (valid (heap w)) keys →
  let ks := key_of (heap w) <$> keys in
  (∃ ext, Prefetch keys w = prefetch_loop (dedup_first ks) 0 (grow ext w)) ∧
  NoDup (dedup_first ks) ∧
  (∀ k, k ∈ dedup_first ks ↔ k ∈ ks) ∧
  (∀ k s w0,
     is_Some (data (cache w0) !! k) →
     prefetch_round k s w0 = (Continue (int_add s 1), w0)) ∧
  (∀ k s w0,
     data (cache w0) !! k = None →
     no_fault (db (cache w0)) →
     kv (db (cache w0)) !! list_byte_of_string k = None →
     ∃ w1, prefetch_round k s w0 = (Continue s, w1) ∧
           data (cache w1) = data (cache w0)) ∧
  (∀ k s w0 v,
     data (cache w0) !! k = None →
     no_fault (db (cache w0)) →
     kv (db (cache w0)) !! list_byte_of_string k = Some v →
     (RemainingCapacity w0).1 ≠ 0 →
     ∃ w1 e, prefetch_round k s w0 = (Continue (int_add s 1), w1) ∧
             data (cache w1) = <[k := e]> (data (cache w0)) ∧
             read (heap w1) (value e) = v) ∧
  (∀ k rest s w0 n,
     data (cache w0) !! k = None →
     fault (db (cache w0)) n →
     ∃ w1, prefetch_loop (k :: rest) s w0 = ((s, Some (ErrStore n)), w1) ∧
           data (cache w1) = data (cache w0) ∧
           faults (db (cache w1)) = tail (faults (db (cache w0)))) ∧
  (∀ K1 K2 v,
     keys = [K1; K1; K2] →
     is_Some (data (cache w) !! key_of (heap w) K1) →
     data (cache w) !! key_of (heap w) K2 = None →
     kv (db (cache w)) !! read (heap w) K2 = Some v →
     len_data (data (cache w)) < capacity (cache w) <= int_max →
     no_fault (db (cache w)) →
     (Prefetch keys w).1 = (2, None)) ∧
  (∀ s w0, prefetch_loop [] s w0 = ((s, None), w0)) ∧
  (∀ k rest s w0,
     is_Some (data (cache w0) !! k) →
     prefetch_loop (k :: rest) s w0 = prefetch_loop rest (int_add s 1) w0) ∧
  (∀ k rest s w0,
     data (cache w0) !! k = None →
     no_fault (db (cache w0)) →
     kv (db (cache w0)) !! list_byte_of_string k = None →
     ∃ ext,
       prefetch_loop (k :: rest) s w0 =
       prefetch_loop rest s
         (mkWorld (heap w0 ++ ext) (clock w0) (ticks w0)
            (mkCache (data (cache w0)) (capacity (cache w0))
               (stats (cache w0)) (after_call (db (cache w0)))))) ∧
  (∀ k rest s w0 v,
     data (cache w0) !! k = None →
     no_fault (db (cache w0)) →
     kv (db (cache w0)) !! list_byte_of_string k = Some v →
     (RemainingCapacity w0).1 = 0 →
     ∃ ext,
       prefetch_loop (k :: rest) s w0 =
       prefetch_loop rest s
         (mkWorld (heap w0 ++ ext) (clock w0) (ticks w0)
            (mkCache (data (cache w0)) (capacity (cache w0))
               (stats (cache w0)) (after_call (db (cache w0)))))) ∧
  (∀ k rest s w0 v,
     data (cache w0) !! k = None →
     no_fault (db (cache w0)) →
     kv (db (cache w0)) !! list_byte_of_string k = Some v →
     (RemainingCapacity w0).1 ≠ 0 →
     ∃ ext val,
       prefetch_loop (k :: rest) s w0 =
       prefetch_loop rest (int_add s 1)
         (mkWorld (heap w0 ++ ext) (clock w0) (S (S (ticks w0)))
            (mkCache
               (<[k := mkCacheEntry val (Z.of_nat (length v))
                         (clock w0 (ticks w0)) (clock w0 (S (ticks w0)))]>
                  (data (cache w0)))
               (capacity (cache w0)) (stats (cache w0))
               (after_call (db (cache w0))))) ∧
       read (heap w0 ++ ext) val = v ∧
       valid (heap w0 ++ ext) val) ∧
  (∀ k rest s w0 n,
     data (cache w0) !! k = None →
     fault (db (cache w0)) n →
     ∃ ext,
       prefetch_loop (k :: rest) s w0 =
       ((s, Some (ErrStore n)),
        mkWorld (heap w0 ++ ext) (clock w0) (ticks w0)
          (mkCache (data (cache w0)) (capacity (cache w0))
             (stats (cache w0)) (after_call (db (cache w0)))))) ∧
  (∀ ks1 ks2 s w0,
     prefetch_loop (ks1 ++ ks2) s w0 =
     match prefetch_loop ks1 s w0 with
     | ((s1, None), w1) => prefetch_loop ks2 s1 w1
     | r => r
     end) ∧
  (Z.of_nat (length keys) <= int_max →
   ∀ n, (Prefetch keys w).1 = (n, None) →
        n = count_resident (data (cache (Prefetch keys w).2))
              (dedup_first ks)).
Proof.
  intros Hval ks.
  assert (∃ ext, Prefetch keys w = prefetch_loop (dedup_first ks) 0 (grow ext w))
    as Hloop.
  { unfold Prefetch, bind. destruct (dedup_loop_eq keys ∅ [] w Hval) as [ext ->].
    rewrite dedup_keys_first. by exists ext. }
  split; [done|]. split; [apply NoDup_dedup_first|].
  split; [intros k; apply elem_of_dedup_first|].
  split; [apply round_resident|]. split; [|split; [|split; [|split]]].
  - intros k s w0 Hk Hf Hkv.
    destruct (round_notfound k s w0 Hk Hf Hkv) as [ext ->]. by eexists.
  - intros k s w0 v Hk Hf Hkv Hrc.
    destruct (round_admit k s w0 v Hk Hf Hkv Hrc) as (ext & val & -> & Hr & _).
    by eexists _, _.
  - intros k rest s w0 n Hk Hf. cbn [prefetch_loop]. unfold bind.
    destruct (round_fault k s w0 n Hk Hf) as [ext ->].
    eexists. split; [reflexivity|]. cbn. split; [done|].
    apply faults_after_call.
  - intros K1 K2 v -> H1 H2 Hkv [Hlt Hmax] Hf.
    destruct Hloop as [ext ->]. subst ks. cbn [fmap list_fmap].
    rewrite dedup_first_twice.
    2:{ intros E. rewrite E, H2 in H1. by destruct H1. }
    cbn [prefetch_loop]. unfold bind.
    rewrite round_resident by done.
    destruct (round_admit (key_of (heap w) K2) (int_add 0 1) (grow ext w) v)
      as (ext' & val & -> & _); try done.
    + cbn. by rewrite bytes_of_key.
    + cbn. apply int_sub_pos; [|done]. unfold len_data in *. lia.
  - split; [done|]. split; [|split; [|split; [|split; [|split; [|split]]]]].
    + intros k rest s w0 Hk. cbn [prefetch_loop]. unfold bind.
      by rewrite round_resident.
    + intros k rest s w0 Hk Hf Hkv. cbn [prefetch_loop]. unfold bind.
      destruct (round_notfound k s w0 Hk Hf Hkv) as [ext ->]. by exists ext.
    + intros k rest s w0 v Hk Hf Hkv Hrc. cbn [prefetch_loop]. unfold bind.
      destruct (round_full k s w0 v Hk Hf Hkv Hrc) as [ext ->]. by exists ext.
    + intros k rest s w0 v Hk Hf Hkv Hrc. cbn [prefetch_loop]. unfold bind.
      destruct (round_admit k s w0 v Hk Hf Hkv Hrc)
        as (ext & val & -> & Hr & Hv).
      by exists ext, val.
    + intros k rest s w0 n Hk Hf. cbn [prefetch_loop]. unfold bind.
      destruct (round_fault k s w0 n Hk Hf) as [ext ->]. by exists ext.
    + apply prefetch_loop_app.
    + intros Hmax n. destruct Hloop as [ext ->]. intros Hn.
      rewrite (prefetch_loop_counts_residents (dedup_first ks) 0
                 (grow ext w) n); try done.
      * apply NoDup_dedup_first.
      * pose proof (length_dedup_first ks) as Hl. unfold ks in *.
        rewrite length_fmap in Hl. lia.
Qed.

(** C5: the insert path of [Set] stores the caller's slice itself, not
    the copy it has just made.  On an empty cache of capacity one,
    [Set("k", v, true)] with [v = [0x01]] puts into the table an entry
    whose [value] is the header [v]; after the caller's [v[0] = 0x02] the
    table holds [0x02] under ["k"] and [Get("k")] returns [0x02]. *)
Theorem set_insert_keeps_caller_slice :
  let w0 := ex_empty 1 in
  let w1 := (Set_ ex_K ex_V true w0).2 in
  let w2 := caller_write ex_V 0 x02 w1 in
  (Set_ ex_K ex_V true w0).1 = (true, None) ∧
  value <$> data (cache w1) !! "k"%string = Some ex_V ∧
  contents w1 !! "k"%string = Some [x01] ∧
  cache w2 = cache w1 ∧
  contents w2 !! "k"%string = Some [x02] ∧
  ∃ s, (Get ex_K w2).1 = (s, true, None) ∧
       read (heap (Get ex_K w2).2) s = [x02].
Proof.
  vm_compute. repeat (split; [reflexivity|]). eexists. split; reflexivity.
Qed.

(** C9, as it is worded, fails on a new cache: the [Get] of an absent key
    also moves [cache_accesses]. *)
Lemma get_absent_key_counts_access :
  let w := ex_empty 1 in
  valid (heap w) ex_K ∧
  data (cache w) !! key_of (heap w) ex_K = None ∧
  kv (db (cache w)) !! read (heap w) ex_K = None ∧
  no_fault (db (cache w)) ∧
  (Get ex_K w).1 = (SNil, false, None) ∧
  cache_accesses (stats (cache w)) = 0 ∧
  cache_accesses (stats (cache (Get ex_K w).2)) = 1 ∧
  ¬ only_misses_moved (stats (cache w)) (stats (cache (Get ex_K w).2)).
Proof.
  cbv zeta. split; [cbn; lia|]. do 6 (split; [reflexivity|]).
  intros (_ & _ & H & _). vm_compute in H. discriminate H.
Qed.

(** * The theorems at work on the sample worlds *)

(** Three calls on a cache of capacity one leave at most one entry. *)
Lemma capacity_invariant_witness :
  len_data
    (data (cache (run [CallSet ex_K ex_V true; CallSet ex_J ex_V true;
                       CallPrefetch [ex_J]] (ex_empty 1)))) <= 1.
Proof.
  exact (proj1 (proj2
    (capacity_invariant ex_heap ex_clock (mkDB ∅ ∅ []) 1
       [CallSet ex_K ex_V true; CallSet ex_J ex_V true; CallPrefetch [ex_J]]
       ltac:(lia)))).
Defined.

(** ["k"] set, evicted and read back on a new cache. *)
Lemma set_evict_get_witness :
  ∃ w1 w2 w3 s,
    Set_ ex_K ex_V true (ex_empty 1) = ((true, None), w1) ∧
    Evict ex_K w1 = ((true, None), w2) ∧
    Get ex_K w2 = ((s, true, None), w3) ∧
    read (heap w3) s = [x01].
Proof.
  destruct (set_evict_get ex_K ex_V (ex_empty 1))
    as (w1 & w2 & w3 & s & H1 & H2 & H3 & H4 & _).
  - cbn; lia.
  - cbn; lia.
  - reflexivity.
  - reflexivity.
  - reflexivity.
  - exists w1, w2, w3, s. repeat split; assumption.
Defined.

(** The resident ["k"] evicted twice, and evicted once over a failing
    store. *)
Lemma evict_behaviour_witness :
  (∃ w' w'', Evict ex_K (ex_warm 1) = ((true, None), w') ∧
             Evict ex_K w' = ((false, None), w'')) ∧
  (∃ w', Evict ex_K ex_failing = ((false, Some (ErrStore 7)), w') ∧
         data (cache w') !! "k"%string = None).
Proof.
  split.
  - destruct (evict_behaviour ex_K (ex_warm 1)) as (_ & Hok & _);
      [vm_compute; lia|].
    destruct (Hok (mkCacheEntry ex_V 1 0 1))
      as (w' & w'' & H1 & _ & _ & _ & _ & _ & H2 & _).
    + vm_compute; reflexivity.
    + vm_compute; lia.
    + reflexivity.
    + exists w', w''. split; assumption.
  - destruct (evict_behaviour ex_K ex_failing) as (_ & _ & Hfail);
      [vm_compute; lia|].
    destruct (Hfail (mkCacheEntry ex_V 1 0 1) 7%nat)
      as (w' & H1 & _ & H2 & _).
    + vm_compute; reflexivity.
    + reflexivity.
    + exists w'. split; assumption.
Defined.

(** ["j"] set with admission declined, then read back. *)
Lemma set_bypasses_table_witness :
  ∃ w1 s w2,
    Set_ ex_J ex_V false (ex_empty 1) = ((false, None), w1) ∧
    data (cache w1) = ∅ ∧
    Get ex_J w1 = ((s, true, None), w2) ∧
    read (heap w2) s = [x01].
Proof.
  destruct (set_bypasses_table ex_J ex_V false (ex_empty 1)) as (Hok & _).
  - cbn; lia.
  - cbn; lia.
  - reflexivity.
  - by left.
  - destruct Hok as (w1 & H1 & H2 & _ & _ & Hget); [reflexivity|].
    assert (w1 = (Set_ ex_J ex_V false (ex_empty 1)).2) as Hw
      by (by rewrite H1).
    destruct Hget as (s & w2 & H4 & H5); [rewrite Hw; reflexivity|].
    exists w1, s, w2.
    split; [exact H1|]. split; [exact H2|]. split; [exact H4 | exact H5].
Defined.

(** The resident ["k"] set again with admission declined. *)
Lemma set_resident_key_witness :
  ∃ w', Set_ ex_K ex_V false (ex_warm 1) = ((true, None), w') ∧
        dom (data (cache w')) = dom (data (cache (ex_warm 1))).
Proof.
  destruct (set_resident_key ex_K ex_V false (ex_warm 1)
              (mkCacheEntry ex_V 1 0 1))
    as (w' & e' & H1 & _ & H2 & _).
  - vm_compute; lia.
  - vm_compute; reflexivity.
  - exists w'. split; assumption.
Defined.

(** A full table: [Prefetch(["j"])] admits nothing and counts nothing. *)
Lemma prefetch_keeps_entries_witness :
  data (cache (Prefetch [ex_J] (ex_warm 1)).2) = data (cache (ex_warm 1)) ∧
  (Prefetch [ex_J] (ex_warm 1)).1 = (0, None).
Proof.
  destruct (prefetch_keeps_entries [ex_J] (ex_warm 1)) as (_ & _ & _ & Hfull).
  destruct Hfull as (H1 & _ & H2); [reflexivity|].
  split; [exact H1|]. apply H2.
  - apply Forall_cons. split; [vm_compute; lia | exact (Forall_nil_2 _)].
  - apply Forall_cons. split; [|exact (Forall_nil_2 _)]. split.
    + vm_compute; reflexivity.
    + exists [x01]. vm_compute; reflexivity.
  - exact (Forall_nil_2 _).
Defined.

(** Room for one more: [Prefetch(["k", "k", "j"])] counts two. *)
Lemma prefetch_protocol_witness :
  (Prefetch [ex_K; ex_K; ex_J] (ex_warm 2)).1 = (2, None).
Proof.
  destruct (prefetch_protocol [ex_K; ex_K; ex_J] (ex_warm 2))
    as (_ & _ & _ & _ & _ & _ & _ & Hscenario & _).
  - repeat (apply Forall_cons; split; [vm_compute; lia|]). exact (Forall_nil_2 _).
  - apply (Hscenario ex_K ex_J [x01]).
    + reflexivity.
    + exists (mkCacheEntry ex_V 1 0 1). vm_compute; reflexivity.
    + vm_compute; reflexivity.
    + vm_compute; reflexivity.
    + split; [reflexivity | vm_compute; discriminate].
    + reflexivity.
Defined.

(** ["k"] looked up on a new cache. *)
Lemma get_absent_key_witness :
  ∃ w', Get ex_K (ex_empty 1) = ((SNil, false, None), w') ∧
        cache_misses (stats (cache w')) = 1 ∧
        cache_accesses (stats (cache w')) = 1.
Proof.
  destruct (get_absent_key ex_K (ex_empty 1))
    as (w' & H1 & _ & _ & H2 & H3 & _).
  - cbn; lia.
  - reflexivity.
  - reflexivity.
  - reflexivity.
  - exists w'. repeat split; assumption.
Defined.

(** * Further properties of the operations *)

(** ** Buffers written by a caller *)

Lemma valid_lt (h : Heap) b o n : valid h (SRef b o n) → (b < length h)%nat.
Proof.
  cbn. destruct (h !! b) eqn:E; [|done]. intros _. by eapply lookup_lt_Some.
Qed.

(** A caller's write through one slice is not seen through a slice over
    another backing array. *)
Lemma read_caller_write_other s i x w s' :
  (∀ b o n b' o' n', s = SRef b o n → s' = SRef b' o' n' → b ≠ b') →
  read (heap (caller_write s i x w)) s' = read (heap w) s'.
Proof.
  intros Hne. unfold caller_write.
  destruct (write (heap w) s i x) as [h'|] eqn:Hw; [|done]. cbn.
  destruct s as [|b o n]; [done|]. destruct s' as [|b' o' n']; [done|].
  unfold write in Hw. case_decide; [|done].
  destruct (heap w !! b) as [arr|]; [|done]. injection Hw as <-.
  unfold read. rewrite list_lookup_insert_ne; [done|]. by eapply Hne.
Qed.

Lemma caller_write_cache s i x w : cache (caller_write s i x w) = cache w.
Proof. unfold caller_write. by destruct (write _ _ _ _). Qed.

(** A write through a slice over an array the table does not point into
    leaves the bytes of the table alone. *)
Lemma contents_caller_write_fresh s i x w (n0 : nat) :
  (∀ k e b o n, data (cache w) !! k = Some e → value e = SRef b o n →
                (b < n0)%nat) →
  (∀ b o n, s = SRef b o n → (n0 ≤ b)%nat) →
  contents (caller_write s i x w) = contents w.
Proof.
  intros Hold Hnew. unfold contents. rewrite caller_write_cache.
  apply map_fmap_ext. intros k e He.
  apply read_caller_write_other. intros b o n b' o' n' -> Hv.
  specialize (Hold k e b' o' n' He Hv). specialize (Hnew b o n eq_refl). lia.
Qed.

Lemma contents_grow ext w c' :
  entries_valid w → data c' = data (cache w) →
  contents (mkWorld (heap w ++ ext) (clock w) (ticks w) c') = contents w.
Proof.
  intros Hv Hd. unfold contents. cbn. rewrite Hd.
  apply map_fmap_ext. intros k e He. apply read_grow. by eapply Hv.
Qed.

(** X1: [makeKey] names table entries by the bytes of the key alone: two
    slices, wherever they lie and whenever they are read, get the same key
    exactly when they hold the same bytes. *)
Theorem makeKey_same_key_iff (s1 s2 : Slice) (w1 w2 : World) :
  (makeKey s1 w1).1 = (makeKey s2 w2).1 ↔
  read (heap w1) s1 = read (heap w2) s2.
Proof. rewrite !makeKey_eq. cbn. apply key_of_inj. Qed.

(** X2: [Get] of a resident key, in a table whose entries point into
    the heap, returns the entry's bytes with [found = true] and no error
    without calling the store, and what it returns is a copy: whatever the
    caller then writes into the returned buffer, the bytes of the table
    stay as they were. *)
Theorem get_hit_defensive_copy (key : Slice) (w : World) (e : CacheEntry) :
  entries_valid w →
  data (cache w) !! key_of (heap w) key = Some e →
  ∃ s w',
    Get key w = ((s, true, None), w') ∧
    read (heap w') s = read (heap w) (value e) ∧
    data (cache w') = data (cache w) ∧
    db (cache w') = db (cache w) ∧
    contents w' = contents w ∧
    ∀ i x, contents (caller_write s i x w') = contents w.
Proof.
  intros Hval Hd.
  destruct (Get_hit key w e Hd (Hval _ _ Hd)) as (ext & s & -> & Hr & _ & Hfresh).
  set (w' := mkWorld _ _ _ _).
  assert (contents w' = contents w) as Hc by (by apply contents_grow).
  exists s, w'. split; [done|]. split; [done|]. split; [done|].
  split; [done|]. split; [done|].
  intros i x. rewrite <- Hc.
  apply (contents_caller_write_fresh s i x w' (length (heap w))); [|done].
  intros k e0 b o n He0 Hv0. cbn in He0.
  apply (valid_lt (heap w) b o n). rewrite <- Hv0. by eapply Hval.
Qed.

(** X3: [Set] on a resident key stores a copy of the value: after the
    call the table holds the bytes of [val] under the key, and it still
    does after any write of the caller into [val]. *)
Theorem set_overwrite_private_copy (key val : Slice) (addToCache : bool)
    (w : World) (e : CacheEntry) :
  valid (heap w) val →
  data (cache w) !! key_of (heap w) key = Some e →
  ∃ w',
    Set_ key val addToCache w = ((true, None), w') ∧
    contents w' !! key_of (heap w) key = Some (read (heap w) val) ∧
    ∀ i x, contents (caller_write val i x w') !! key_of (heap w) key
           = Some (read (heap w) val).
Proof.
  intros Hv Hd.
  destruct (Set_resident key val addToCache w e Hd Hv)
    as (ext & v & -> & Hr & _ & Hfresh).
  eexists. split; [reflexivity|].
  unfold contents. split.
  - cbn. rewrite lookup_fmap, lookup_insert_eq. cbn. by rewrite Hr.
  - intros i x. rewrite caller_write_cache. cbn.
    rewrite lookup_fmap, lookup_insert_eq. cbn. f_equal.
    rewrite read_caller_write_other; [done|].
    intros b o n b' o' n' -> ->. specialize (Hfresh b' o' n' eq_refl).
    apply valid_lt in Hv. lia.
Qed.

Lemma pebble_Get_db d k :
  kv (pebble_Get d k).2 = kv d ∧ synced (pebble_Get d k).2 = synced d.
Proof.
  unfold pebble_Get, next_fault. destruct (faults d) as [|[n|] fs]; cbn;
    try destruct (kv d !! k); done.
Qed.

(** X4: whatever the store answers, [Get] changes neither the table nor
    the capacity, nor what the store holds, nor the eviction counter. *)
Theorem get_changes_no_data (key : Slice) (w : World) :
  data (cache (Get key w).2) = data (cache w) ∧
  capacity (cache (Get key w).2) = capacity (cache w) ∧
  kv (db (cache (Get key w).2)) = kv (db (cache w)) ∧
  synced (db (cache (Get key w).2)) = synced (db (cache w)) ∧
  evictions (stats (cache (Get key w).2)) = evictions (stats (cache w)).
Proof.
  unfold_ops. sym_exec.
  destruct (data (cache w) !! key_of (heap w) key); sym_exec; [done|].
  unfold on_db. cbn.
  pose proof (pebble_Get_db (db (cache w))
                (read (heap w ++ fresh_ext (read (heap w) key)) key)) as [Hk Hs].
  destruct (pebble_Get _ _) as [[[]|] ?]; sym_exec; done.
Qed.

(** X5: when the key is not resident and the store read fails, [Get]
    returns [(nil, false, err)] with the store's error; the miss is
    counted all the same and the table is unchanged. *)
Theorem get_store_error (key : Slice) (w : World) (n : nat) :
  data (cache w) !! key_of (heap w) key = None →
  fault (db (cache w)) n →
  ∃ w',
    Get key w = ((SNil, false, Some (ErrStore n)), w') ∧
    stats (cache w') = CacheMiss (stats (cache w)) ∧
    data (cache w') = data (cache w).
Proof.
  intros Hd Hf. destruct (Get_miss_fault key w n Hd Hf) as [ext ->].
  by eexists.
Qed.

(** Which counter method [Get] and [Set] call. *)
Lemma Get_stats key w :
  stats (cache (Get key w).2) =
  match data (cache w) !! key_of (heap w) key with
  | Some _ => CacheHit (stats (cache w))
  | None => CacheMiss (stats (cache w))
  end.
Proof.
  unfold_ops. sym_exec.
  destruct (data (cache w) !! key_of (heap w) key); sym_exec; [done|].
  unfold on_db. cbn. destruct (pebble_Get _ _) as [[[]|] ?]; sym_exec; done.
Qed.

Lemma Set_stats key val addToCache w :
  stats (cache (Set_ key val addToCache w).2) =
  match data (cache w) !! key_of (heap w) key with
  | Some _ => CacheHit (stats (cache w))
  | None => CacheMiss (stats (cache w))
  end.
Proof.
  unfold_ops. sym_exec.
  destruct (data (cache w) !! key_of (heap w) key); sym_exec; [done|].
  destruct (addToCache && _); sym_exec; [done|].
  unfold on_db. cbn. destruct (pebble_Set _ _ _ _) as [[] ?]; sym_exec; done.
Qed.

(** What [Evict] returns and what it does to the table and the counters. *)
Lemma Evict_result key w :
  let k := key_of (heap w) key in
  let r := (Evict key w).1 in
  let w' := (Evict key w).2 in
  data (cache w') = delete k (data (cache w)) ∧
  stats (cache w') =
    (if r.1 then CacheEvict (stats (cache w)) else stats (cache w)) ∧
  (r.1 = true → r.2 = None ∧ is_Some (data (cache w) !! k)) ∧
  (data (cache w) !! k = None → r = (false, None)).
Proof.
  unfold_ops. sym_exec.
  destruct (data (cache w) !! key_of (heap w) key) as [e|] eqn:Hd; sym_exec.
  - unfold on_db. cbn. destruct (pebble_Set _ _ _ _) as [[] ?]; sym_exec;
      repeat split; eauto; done.
  - rewrite delete_id by done. repeat split; done.
Qed.

Lemma int_wrap_add_l a b : int_wrap (int_wrap a + b) = int_wrap (a + b).
Proof.
  unfold int_wrap. f_equal.
  replace ((a + 2 ^ 63) mod 2 ^ 64 - 2 ^ 63 + b + 2 ^ 63)
    with ((a + 2 ^ 63) mod 2 ^ 64 + b) by lia.
  rewrite Zplus_mod_idemp_l. f_equal. lia.
Qed.

Lemma int_wrap_add_r a b : int_wrap (a + int_wrap b) = int_wrap (a + b).
Proof. by rewrite Z.add_comm, int_wrap_add_l, Z.add_comm. Qed.

Lemma accesses_CacheHit s : accesses_add_up s → accesses_add_up (CacheHit s).
Proof.
  unfold accesses_add_up, CacheHit, int_add. cbn. intros ->.
  rewrite int_wrap_add_l. unfold int_add.
  rewrite int_wrap_add_l. f_equal. lia.
Qed.

Lemma accesses_CacheMiss s : accesses_add_up s → accesses_add_up (CacheMiss s).
Proof.
  unfold accesses_add_up, CacheMiss, int_add. cbn. intros ->.
  rewrite int_wrap_add_l, int_wrap_add_r. f_equal. lia.
Qed.

(** X7: every [Get] and every [Set] counts exactly one access,
    whatever the store does: a hit ([CacheHit]) when the key is resident
    and a miss ([CacheMiss]) when it is not; the access counter goes up by
    one and the eviction counter stays. *)
Theorem one_access_per_call (key val : Slice) (addToCache : bool) (w : World) :
  let s := stats (cache w) in
  let counted := match data (cache w) !! key_of (heap w) key with
                 | Some _ => CacheHit s
                 | None => CacheMiss s
                 end in
  stats (cache (Get key w).2) = counted ∧
  stats (cache (Set_ key val addToCache w).2) = counted ∧
  cache_accesses counted = int_add (cache_accesses s) 1 ∧
  evictions counted = evictions s.
Proof.
  cbv zeta. split; [apply Get_stats|]. split; [apply Set_stats|].
  by destruct (data (cache w) !! key_of (heap w) key).
Qed.

Lemma exec_accesses c w :
  accesses_add_up (stats (cache w)) →
  accesses_add_up (stats (cache (exec c w))).
Proof.
  intros H. destruct c; cbn [exec].
  - rewrite Get_stats. destruct (_ !! _);
      [by apply accesses_CacheHit | by apply accesses_CacheMiss].
  - rewrite Set_stats. destruct (_ !! _);
      [by apply accesses_CacheHit | by apply accesses_CacheMiss].
  - destruct (Evict_result key w) as (_ & -> & _). by destruct (_.1.1).
  - by destruct (Prefetch_effect keys w) as (_ & -> & _).
  - done.
  - unfold_ops. unfold on_db. by destruct (pebble_Close _).
  - done.
  - by rewrite caller_write_cache.
Qed.

(** X8: in every state a cache can reach, [cache_accesses] is the sum
    of [cache_hits] and [cache_misses] (as [int]s, that is up to
    wrap-around). *)
Theorem accesses_are_hits_plus_misses (h : Heap) (clk : nat → Time) (d : DB)
    (cap : Z) (cs : list Call) :
  let s := stats (cache (run cs (start h clk d cap))) in
  cache_accesses s = int_wrap (cache_hits s + cache_misses s).
Proof.
  cbv zeta. change (accesses_add_up (stats (cache (run cs (start h clk d cap))))).
  assert (accesses_add_up (stats (cache (start h clk d cap)))) as H0 by done.
  revert H0. generalize (start h clk d cap).
  induction cs as [|c cs IH]; intros w Hw; [done|].
  cbn. apply IH. by apply exec_accesses.
Qed.

(** X6: [Set(key, val, addToCache)] followed by [Get(key)] returns the
    bytes of [val] with [found = true] and no error, wherever [Set] put
    them (resident key, admitted key, or written to the store), provided
    the store fails neither call. *)
Theorem set_then_get (key val : Slice) (addToCache : bool) (w : World) :
  valid (heap w) key →
  valid (heap w) val →
  no_fault (db (cache w)) →
  no_fault (after_call (db (cache w))) →
  ∃ placed w1 s w2,
    Set_ key val addToCache w = ((placed, None), w1) ∧
    Get key w1 = ((s, true, None), w2) ∧
    read (heap w2) s = read (heap w) val.
Proof.
  intros Hk Hv Hf1 Hf2.
  destruct (data (cache w) !! key_of (heap w) key) as [e|] eqn:Hd.
  - destruct (Set_resident key val addToCache w e Hd Hv)
      as (ext & v & -> & Hr & Hvv & _).
    set (w1 := mkWorld _ _ _ _).
    destruct (Get_hit key w1 (mkCacheEntry v (len val) (first_inserted e)
                                (clock w (ticks w))))
      as (ext' & s & HG & Hs & _).
    { cbn. rewrite key_of_grow by done. apply lookup_insert_eq. }
    { done. }
    exists true, w1. eexists s, _. split; [done|]. split; [exact HG|].
    cbn in *. congruence.
  - destruct (decide (addToCache = true ∧
                      len_data (data (cache w)) < capacity (cache w)))
      as [[-> Hc]|Hno].
    + destruct (Set_admit key val w Hd Hc Hv) as [ext ->].
      set (w1 := mkWorld _ _ _ _).
      destruct (Get_hit key w1 (mkCacheEntry val (len val) (clock w (ticks w))
                                  (clock w (S (ticks w)))))
        as (ext' & s & HG & Hs & _).
      { cbn. rewrite key_of_grow by done. apply lookup_insert_eq. }
      { cbn. by apply valid_grow. }
      exists true, w1. eexists s, _. split; [done|]. split; [exact HG|].
      cbn in *. rewrite Hs. by apply read_grow.
    + assert (addToCache = false ∨
              capacity (cache w) <= len_data (data (cache w))) as Hc.
      { destruct addToCache; [right|by left]. 
        destruct (Z.lt_ge_cases (len_data (data (cache w))) (capacity (cache w)));
          [|done]. by destruct Hno. }
      destruct (Set_store_ok key val addToCache w Hd Hc Hk Hv Hf1) as [ext ->].
      set (w1 := mkWorld _ _ _ _).
      destruct (Get_miss_found key w1 (read (heap w) val))
        as (ext' & s & HG & Hs & _).
      { cbn. by rewrite key_of_grow. }
      { cbn. by apply valid_grow. }
      { eapply no_fault_faults; [|exact Hf2]. cbn.
        by rewrite faults_after_call. }
      { cbn. rewrite read_grow by done. apply lookup_insert_eq. }
      exists false, w1. eexists s, _. by split; [|split; [exact HG|]].
Qed.

(** X9: whatever [Evict] returns, the key is not in the table
    afterwards and every other entry is as before; an eviction is counted
    exactly when the result is [true], no hit or miss ever is; the result
    is [true] only for a key that was resident and only with a nil error,
    and a key that was not resident gives [(false, nil)]. *)
Theorem evict_outcome (key : Slice) (w : World) :
  let k := key_of (heap w) key in
  let r := (Evict key w).1 in
  let w' := (Evict key w).2 in
  data (cache w') = delete k (data (cache w)) ∧
  data (cache w') !! k = None ∧
  stats (cache w') =
    (if r.1 then CacheEvict (stats (cache w)) else stats (cache w)) ∧
  (r.1 = true → r.2 = None ∧ is_Some (data (cache w) !! k)) ∧
  (data (cache w) !! k = None → r = (false, None)).
Proof.
  cbv zeta. destruct (Evict_result key w) as (Hd & Hs & Ht & Hn).
  split; [done|]. split; [rewrite Hd; apply lookup_delete_eq|]. done.
Qed.

Lemma bounded_start h clk d cap : 0 <= cap → bounded (start h clk d cap).
Proof.
  intros H. unfold bounded, len_data. cbn. rewrite map_size_empty. lia.
Qed.

Lemma run_bounded h clk d cap cs :
  0 <= cap →
  capacity (cache (run cs (start h clk d cap))) = cap ∧
  0 <= len_data (data (cache (run cs (start h clk d cap)))) <= cap.
Proof.
  intros H. destruct (run_frame cs (start h clk d cap)) as (Hc & _ & _ & Hb).
  split; [done|]. specialize (Hb (bounded_start h clk d cap H)).
  unfold bounded in Hb. rewrite Hc in Hb. cbn in Hb. unfold len_data in *. lia.
Qed.

(** X10: for a cache made with a capacity between 0 and the largest
    [int], [RemainingCapacity] returns exactly [capacity - len(data)]
    without wrap-around, a number between 0 and the capacity, and changes
    nothing. *)
Theorem remaining_capacity_exact (h : Heap) (clk : nat → Time) (d : DB)
    (cap : Z) (cs : list Call) :
  0 <= cap <= int_max →
  let w := run cs (start h clk d cap) in
  RemainingCapacity w = (cap - len_data (data (cache w)), w) ∧
  0 <= cap - len_data (data (cache w)) <= cap.
Proof.
  intros [H0 Hmax] w. destruct (run_bounded h clk d cap cs H0) as [Hc Hb].
  fold w in Hc, Hb. split; [|lia].
  unfold_ops. cbn. rewrite Hc. unfold int_sub. rewrite int_wrap_id; [done|].
  unfold is_int, int_min, int_max in *. lia.
Qed.

(** What [Set] does with a key that is not resident. *)
Lemma Set_nonresident key val addToCache w :
  data (cache w) !! key_of (heap w) key = None →
  let room := addToCache &&
              (len_data (data (cache w)) <? capacity (cache w)) in
  (Set_ key val addToCache w).1.1 = room ∧
  ∃ e, data (cache (Set_ key val addToCache w).2) =
       if room then <[key_of (heap w) key := e]> (data (cache w))
       else data (cache w).
Proof.
  intros Hd. unfold_ops. sym_exec. rewrite Hd. sym_exec.
  destruct (addToCache && _); sym_exec; [by eauto|].
  unfold on_db. cbn. destruct (pebble_Set _ _ _ _) as [[] ?]; sym_exec;
    split; try done; by exists (mkCacheEntry SNil 0 0 0).
Qed.

(** X11: in a cache made with such a capacity, [Set(key, val, true)]
    of a key that is not resident is admitted exactly when
    [RemainingCapacity()] is positive; admission takes the remaining
    capacity down by exactly one, and a full table stays full. *)
Theorem set_admits_iff_room (h : Heap) (clk : nat → Time) (d : DB) (cap : Z)
    (cs : list Call) (key val : Slice) :
  0 <= cap <= int_max →
  let w := run cs (start h clk d cap) in
  data (cache w) !! key_of (heap w) key = None →
  ((Set_ key val true w).1.1 = true ↔ 0 < (RemainingCapacity w).1) ∧
  (0 < (RemainingCapacity w).1 →
   (RemainingCapacity (Set_ key val true w).2).1 =
     (RemainingCapacity w).1 - 1) ∧
  ((RemainingCapacity w).1 = 0 →
   (RemainingCapacity (Set_ key val true w).2).1 = 0).
Proof.
  intros [H0 Hmax] w Hd.
  destruct (run_bounded h clk d cap cs H0) as [Hc Hb]. fold w in Hc, Hb.
  destruct (Set_nonresident key val true w Hd) as (Hr & e & Hdata).
  destruct (Set_effect key val true w) as (Hc' & _).
  assert (∀ n, 0 <= n <= cap → int_sub cap n = cap - n) as Hsub.
  { intros n Hn. unfold int_sub. apply int_wrap_id.
    unfold is_int, int_min, int_max in *. lia. }
  cbn [RemainingCapacity bind get_capacity get_data ret fst].
  rewrite Hc', Hdata, Hr, Hc. rewrite (Hsub _ Hb). cbn [andb].
  destruct (len_data (data (cache w)) <? cap) eqn:Hlt.
  - apply Z.ltb_lt in Hlt. split; [split; [lia|done]|].
    assert (len_data (<[key_of (heap w) key:=e]> (data (cache w)))
            = len_data (data (cache w)) + 1) as Hl.
    { unfold len_data. rewrite map_size_insert_None by done. lia. }
    rewrite Hl, Hsub by lia. lia.
  - apply Z.ltb_ge in Hlt. rewrite Hsub by lia.
    split; [split; [done|lia]|]. lia.
Qed.

Lemma prefetch_loop_count ks s w :
  0 <= s → s + Z.of_nat (length ks) <= int_max →
  s <= (prefetch_loop ks s w).1.1 <= s + Z.of_nat (length ks).
Proof.
  revert s w. induction ks as [|k rest IH]; intros s w H0 Hmax.
  { cbn. lia. }
  cbn [prefetch_loop length] in *. unfold bind.
  pose proof (round_count k s w) as Hr. cbv zeta in Hr.
  destruct (prefetch_round k s w) as [r w1]. cbn [fst snd] in Hr.
  assert (int_add s 1 = s + 1) as Hs1.
  { apply int_incr; unfold is_int, int_min, int_max in *; lia. }
  destruct Hr as [[-> _] | [[-> _] | [err ->]]].
  - rewrite Hs1. specialize (IH (s + 1) w1). lia.
  - specialize (IH s w1). lia.
  - cbn. lia.
Qed.

Lemma dedup_loop_length keys seen acc w :
  (length (dedup_loop keys seen acc w).1 ≤ length acc + length keys)%nat.
Proof.
  revert seen acc w. induction keys as [|kb rest IH]; intros seen acc w.
  { cbn. lia. }
  cbn [dedup_loop length]. unfold bind. rewrite makeKey_eq.
  destruct (decide _).
  - etrans; [apply IH|]. lia.
  - etrans; [apply IH|]. rewrite length_app. cbn. lia.
Qed.

(** X12: the count [Prefetch] returns is at least 0 and at most the
    number of keys it was given. *)
Theorem prefetch_count_bounds (keys : list Slice) (w : World) :
  Z.of_nat (length keys) <= int_max →
  0 <= (Prefetch keys w).1.1 <= Z.of_nat (length keys).
Proof.
  intros Hmax. unfold Prefetch, bind.
  pose proof (dedup_loop_length keys ∅ [] w) as Hl.
  destruct (dedup_loop keys ∅ [] w) as [ks w1]. cbn [fst length] in Hl.
  pose proof (prefetch_loop_count ks 0 w1). lia.
Qed.

Lemma round_db k s w :
  kv (db (cache (prefetch_round k s w).2)) = kv (db (cache w)) ∧
  synced (db (cache (prefetch_round k s w).2)) = synced (db (cache w)).
Proof.
  unfold_ops. sym_exec.
  destruct (data (cache w) !! k) as [e|] eqn:Hd; sym_exec; [done|].
  unfold on_db. cbn.
  pose proof (pebble_Get_db (db (cache w)) (read (heap w ++ [list_byte_of_string k])
     (SRef (length (heap w)) 0 (length (list_byte_of_string k))))) as [Hk Hs].
  destruct (pebble_Get _ _) as [[[]|val] ?]; sym_exec; try done.
  rewrite Hd. sym_exec. destruct (int_sub _ _ =? 0); sym_exec; done.
Qed.

Lemma prefetch_loop_db ks s w :
  kv (db (cache (prefetch_loop ks s w).2)) = kv (db (cache w)) ∧
  synced (db (cache (prefetch_loop ks s w).2)) = synced (db (cache w)).
Proof.
  revert s w. induction ks as [|k rest IH]; intros s w; [done|].
  cbn [prefetch_loop]. unfold bind.
  destruct (round_db k s w) as [Hk Hs].
  destruct (prefetch_round k s w) as [[s1|s1 err] w1]; cbn [snd] in *.
  - destruct (IH s1 w1) as [-> ->]. done.
  - done.
Qed.

(** X13: [Prefetch] only reads the store: what the store holds is
    unchanged, and so are all the statistics and the capacity. *)
Theorem prefetch_reads_only (keys : list Slice) (w : World) :
  kv (db (cache (Prefetch keys w).2)) = kv (db (cache w)) ∧
  synced (db (cache (Prefetch keys w).2)) = synced (db (cache w)) ∧
  stats (cache (Prefetch keys w).2) = stats (cache w) ∧
  capacity (cache (Prefetch keys w).2) = capacity (cache w).
Proof.
  destruct (Prefetch_effect keys w) as ((Hc & _) & Hs & _).
  split; [|split; [|done]].
  all: unfold Prefetch, bind;
    destruct (dedup_loop_grow keys ∅ [] w) as [ext Hg];
    destruct (dedup_loop keys ∅ [] w) as [ks w1]; cbn [snd] in Hg; subst w1;
    destruct (prefetch_loop_db ks 0 (grow ext w)) as [Hk Hy];
    first [exact Hk | exact Hy].
Qed.

(** X15: the boolean [Set] returns tells where the value went.  With
    [true] the error is nil, the key is resident and the store has not
    been called at all (the write is deferred until eviction); with
    [false] the table is unchanged and does not hold the key. *)
Theorem set_result_tells_place (key val : Slice) (addToCache : bool) (w : World) :
  let r := (Set_ key val addToCache w).1 in
  let w' := (Set_ key val addToCache w).2 in
  (r.1 = true →
   r.2 = None ∧ db (cache w') = db (cache w) ∧
   is_Some (data (cache w') !! key_of (heap w) key)) ∧
  (r.1 = false →
   data (cache w') = data (cache w) ∧
   data (cache w') !! key_of (heap w) key = None).
Proof.
  unfold_ops. sym_exec.
  destruct (data (cache w) !! key_of (heap w) key) as [e|] eqn:Hd; sym_exec.
  - rewrite (alter_Some _ _ (data (cache w)) e) by done.
    rewrite !alter_insert_eq. split; [|done]. intros _.
    rewrite lookup_insert_eq. eauto.
  - destruct (addToCache && _); sym_exec.
    + split; [|done]. intros _. rewrite lookup_insert_eq. eauto.
    + unfold on_db. cbn. destruct (pebble_Set _ _ _ _) as [[] ?]; sym_exec;
        split; done.
Qed.

(** X16: a cache made with capacity 0 never holds an entry: in every
    reachable state the table is empty, [Set] returns [false] and
    [Prefetch] admits nothing. *)
Theorem capacity_zero_writes_through (h : Heap) (clk : nat → Time) (d : DB)
    (cs : list Call) :
  let w := run cs (start h clk d 0) in
  data (cache w) = ∅ ∧
  (∀ key val addToCache, (Set_ key val addToCache w).1.1 = false) ∧
  (∀ keys, data (cache (Prefetch keys w).2) = ∅).
Proof.
  intros w. destruct (run_bounded h clk d 0 cs) as [Hc Hb]; [done|].
  fold w in Hc, Hb.
  assert (data (cache w) = ∅) as He.
  { apply map_size_empty_iff. unfold len_data in Hb. lia. }
  split; [done|]. split.
  - intros key val addToCache.
    destruct (Set_nonresident key val addToCache w) as (-> & _).
    { by rewrite He. }
    rewrite Hc. replace (len_data (data (cache w)) <? 0) with false.
    + by destruct addToCache.
    + symmetry. apply Z.ltb_ge. lia.
  - intros keys. rewrite <- He. unfold Prefetch, bind.
    destruct (dedup_loop_grow keys ∅ [] w) as [ext Hg].
    destruct (dedup_loop keys ∅ [] w) as [ks w1]. cbn [snd] in Hg. subst w1.
    rewrite prefetch_loop_full; [done|]. cbn. rewrite Hc, He. done.
Qed.

(** [Prefetch] of a single key that is only in the store, with room. *)
Lemma Prefetch_single_admit key w v :
  valid (heap w) key →
  data (cache w) !! key_of (heap w) key = None →
  kv (db (cache w)) !! read (heap w) key = Some v →
  no_fault (db (cache w)) →
  int_sub (capacity (cache w)) (len_data (data (cache w))) ≠ 0 →
  ∃ ext e,
    Prefetch [key] w =
      ((1, None),
       mkWorld (heap w ++ ext) (clock w) (S (S (ticks w)))
         (mkCache (<[key_of (heap w) key := e]> (data (cache w)))
            (capacity (cache w)) (stats (cache w))
            (after_call (db (cache w))))) ∧
    read (heap w ++ ext) (value e) = v ∧
    valid (heap w ++ ext) (value e).
Proof.
  intros Hk Hd Hkv Hf Hrc. unfold Prefetch, bind.
  destruct (dedup_loop_eq [key] ∅ [] w) as [ext ->].
  { by apply Forall_cons. }
  rewrite dedup_keys_first. cbn [fmap list_fmap dedup_first].
  rewrite filter_nil. cbn [prefetch_loop]. unfold bind.
  destruct (round_admit (key_of (heap w) key) 0 (grow ext w) v)
    as (ext' & val & -> & Hr & Hv); try done.
  { cbn. by rewrite bytes_of_key. }
  cbn. cbn in Hr, Hv. rewrite <- app_assoc in *.
  eexists _, _. split; [reflexivity|]. done.
Qed.

(** X14: a key that is only in the store, prefetched while there is
    room, is then served from the table: [Prefetch([K])] returns
    [(1, nil)] and the following [Get(K)] returns the store's bytes as a
    hit, without calling the store. *)
Theorem prefetch_then_get (key : Slice) (w : World) (v : list byte) :
  valid (heap w) key →
  data (cache w) !! key_of (heap w) key = None →
  kv (db (cache w)) !! read (heap w) key = Some v →
  no_fault (db (cache w)) →
  len_data (data (cache w)) < capacity (cache w) <= int_max →
  ∃ w1 s w2,
    Prefetch [key] w = ((1, None), w1) ∧
    Get key w1 = ((s, true, None), w2) ∧
    read (heap w2) s = v ∧
    stats (cache w2) = CacheHit (stats (cache w)) ∧
    db (cache w2) = db (cache w1).
Proof.
  intros Hk Hd Hkv Hf [Hlt Hmax].
  destruct (Prefetch_single_admit key w v Hk Hd Hkv Hf)
    as (ext & e & -> & Hr & Hv).
  { apply int_sub_pos; [|done]. unfold len_data in *. lia. }
  set (w1 := mkWorld _ _ _ _).
  destruct (Get_hit key w1 e) as (ext' & s & HG & Hs & _).
  { cbn. rewrite key_of_grow by done. apply lookup_insert_eq. }
  { done. }
  exists w1, s. eexists. split; [done|]. split; [exact HG|]. cbn in *.
  by rewrite Hs.
Qed.

(** [Set] on a resident key keeps the keys of the table. *)
Lemma Set_resident_dom key val addToCache w :
  is_Some (data (cache w) !! key_of (heap w) key) →
  (Set_ key val addToCache w).1 = (true, None) ∧
  dom (data (cache (Set_ key val addToCache w).2)) = dom (data (cache w)).
Proof.
  intros [e Hd]. unfold_ops. sym_exec. rewrite Hd. sym_exec.
  split; [done|].
  rewrite (alter_Some _ _ (data (cache w)) e) by done.
  rewrite !alter_insert_eq. rewrite dom_insert_L.
  apply elem_of_dom_2 in Hd. set_solver.
Qed.

(** X17: [CreateCache] takes a negative capacity as it is.  On such a
    cache [Set] never admits a key: in every state the cache can reach,
    [Set] leaves the set of keys of the table as it is and, for a key
    that is not resident, returns [false] with the table unchanged.
    [Prefetch], whose guard is [RemainingCapacity() == 0], does insert a
    key found in the store, leaving more entries in the table than the
    capacity. *)
Theorem negative_capacity (h : Heap) (clk : nat → Time) (d : DB) (cap : Z)
    (key : Slice) (v : list byte) :
  int_min <= cap < 0 →
  valid h key →
  kv d !! read h key = Some v →
  no_fault d →
  let w := start h clk d cap in
  (∀ key' val addToCache, (Set_ key' val addToCache w).1.1 = false) ∧
  (∃ w', Prefetch [key] w = ((1, None), w') ∧
         is_Some (data (cache w') !! key_of h key) ∧
         capacity (cache w') < len_data (data (cache w'))) ∧
  (∀ cs key' val addToCache,
     let w1 := run cs w in
     capacity (cache w1) = cap ∧
     dom (data (cache (Set_ key' val addToCache w1).2)) =
       dom (data (cache w1)) ∧
     (data (cache w1) !! key_of (heap w1) key' = None →
      (Set_ key' val addToCache w1).1.1 = false ∧
      data (cache (Set_ key' val addToCache w1).2) = data (cache w1))).
Proof.
  intros [Hmin Hneg] Hk Hkv Hf w. split; [|split].
  - intros key' val addToCache.
    destruct (Set_nonresident key' val addToCache w) as (-> & _); [done|].
    cbn. replace (len_data ∅ <? cap) with false; [by destruct addToCache|].
    symmetry. apply Z.ltb_ge. unfold len_data. rewrite map_size_empty. lia.
  - destruct (Prefetch_single_admit key w v) as (ext & e & -> & _); try done.
    { cbn. unfold int_sub, len_data. rewrite map_size_empty.
      rewrite int_wrap_id; [lia|].
      unfold is_int, int_min, int_max in *. lia. }
    eexists. split; [reflexivity|]. cbn. split.
    + rewrite lookup_insert_eq. eauto.
    + unfold len_data. rewrite map_size_insert_None by done.
      rewrite map_size_empty. lia.
  - intros cs key' val addToCache w1.
    destruct (run_frame cs w) as (Hc & _). fold w1 in Hc. cbn in Hc.
    assert (data (cache w1) !! key_of (heap w1) key' = None →
            (Set_ key' val addToCache w1).1.1 = false ∧
            data (cache (Set_ key' val addToCache w1).2) = data (cache w1))
      as Hnone.
    { intros Hd.
      destruct (Set_nonresident key' val addToCache w1 Hd) as (Hr & e & He).
      replace (len_data (data (cache w1)) <? capacity (cache w1))
        with false in Hr, He.
      - rewrite andb_false_r in Hr, He. done.
      - symmetry. apply Z.ltb_ge. rewrite Hc. unfold len_data. lia. }
    split; [done|]. split; [|done].
    destruct (data (cache w1) !! key_of (heap w1) key') as [e|] eqn:Hd.
    + apply Set_resident_dom. rewrite Hd. eauto.
    + destruct (Hnone eq_refl) as [_ ->]. done.
Qed.

(** X18: when [Evict]'s write to the store fails for a key the store
    does not have, the value is lost: [Evict] returns [(false, err)] and
    the following [Get] finds the key neither in the table nor in the
    store. *)
Theorem failed_evict_loses_value (key : Slice) (w : World) (e : CacheEntry)
    (n : nat) :
  valid (heap w) key →
  data (cache w) !! key_of (heap w) key = Some e →
  kv (db (cache w)) !! read (heap w) key = None →
  fault (db (cache w)) n →
  no_fault (after_call (db (cache w))) →
  ∃ w1 w2,
    Evict key w = ((false, Some (ErrStore n)), w1) ∧
    Get key w1 = ((SNil, false, None), w2).
Proof.
  intros Hk Hd Hkv Hf Hf2.
  destruct (Evict_fault key w e n Hd Hf) as [ext ->].
  set (w1 := mkWorld _ _ _ _).
  destruct (Get_miss_notfound key w1) as [ext' HG].
  { cbn. rewrite key_of_grow by done. apply lookup_delete_eq. }
  { cbn. by apply valid_grow. }
  { done. }
  { cbn. rewrite read_grow by done. by rewrite kv_after_call. }
  by eexists w1, _.
Qed.

(** X19: when [Prefetch] returns a nil error, its count is the number
    of distinct keys of its input that are resident afterwards. *)
Theorem prefetch_counts_residents (keys : list Slice) (w : World) (n : Z) :
  Forall (valid (heap w)) keys →
  Z.of_nat (length keys) <= int_max →
  (Prefetch keys w).1 = (n, None) →
  n = count_resident (data (cache (Prefetch keys w).2))
        (dedup_first (key_of (heap w) <$> keys)).
Proof.
  intros Hval Hmax. unfold Prefetch, bind.
  destruct (dedup_loop_eq keys ∅ [] w Hval) as [ext ->].
  rewrite dedup_keys_first. intros Hn.
  rewrite (prefetch_loop_counts_residents
             (dedup_first (key_of (heap w) <$> keys)) 0 (grow ext w) n);
    try done.
  - apply NoDup_dedup_first.
  - pose proof (length_dedup_first (key_of (heap w) <$> keys)) as Hl.
    rewrite length_fmap in Hl. lia.
Qed.

Lemma entry_ok_mono h clk t e ext t' :
  (t ≤ t')%nat → entry_ok h clk t e → entry_ok (h ++ ext) clk t' e.
Proof.
  intros Ht (Hv & Hs & i & j & Hij & Hi & Hj).
  split; [by apply valid_grow|]. split; [done|]. exists i, j.
  split; [lia|done].
Qed.

Lemma entries_ok_mono clk w ext t' c' :
  (ticks w ≤ t')%nat → data c' = data (cache w) →
  entries_ok clk w →
  entries_ok clk (mkWorld (heap w ++ ext) (clock w) t' c').
Proof.
  intros Ht Hd [Hclk H]. split; [done|]. intros k e He. cbn in *.
  rewrite Hd in He. eapply entry_ok_mono; [exact Ht | by apply (H k)].
Qed.

Lemma entries_ok_insert clk w ext t' c' k e :
  (ticks w ≤ t')%nat → data c' = <[k := e]> (data (cache w)) →
  entry_ok (heap w ++ ext) clk t' e →
  entries_ok clk w →
  entries_ok clk (mkWorld (heap w ++ ext) (clock w) t' c').
Proof.
  intros Ht Hd He [Hclk H]. split; [done|]. intros k' e' He'. cbn in *.
  rewrite Hd in He'. rewrite lookup_insert in He'. case_decide.
  - by injection He' as <-.
  - eapply entry_ok_mono; [exact Ht | by apply (H k')].
Qed.

Lemma entries_ok_delete clk w ext c' k :
  data c' = delete k (data (cache w)) →
  entries_ok clk w →
  entries_ok clk (mkWorld (heap w ++ ext) (clock w) (ticks w) c').
Proof.
  intros Hd [Hclk H]. split; [done|]. intros k' e' He'. cbn in *.
  rewrite Hd in He'. rewrite lookup_delete in He'. case_decide; [done|].
  eapply entry_ok_mono; [done | by apply (H k')].
Qed.

Lemma Get_entries_ok clk key w :
  entries_ok clk w → entries_ok clk (Get key w).2.
Proof.
  intros H. unfold_ops. sym_exec.
  destruct (data (cache w) !! key_of (heap w) key); sym_exec.
  - rewrite <- app_assoc. by apply entries_ok_mono.
  - unfold on_db. cbn. destruct (pebble_Get _ _) as [[[]|] ?]; sym_exec;
      rewrite <- ?app_assoc; by apply entries_ok_mono.
Qed.

Lemma Set_entries_ok clk key val addToCache w :
  valid (heap w) val → entries_ok clk w →
  entries_ok clk (Set_ key val addToCache w).2.
Proof.
  intros Hv H. pose proof (proj1 H) as Hclk. unfold_ops. sym_exec.
  destruct (data (cache w) !! key_of (heap w) key) as [e|] eqn:Hd; sym_exec.
  - rewrite (alter_Some _ _ (data (cache w)) e) by done.
    rewrite !alter_insert_eq. cbn. rewrite <- app_assoc.
    eapply entries_ok_insert; [lia | reflexivity | | done].
    destruct (proj2 H _ _ Hd) as (_ & _ & i & j & Hij & Hi & _).
    split; [rewrite app_assoc; apply valid_fresh|]. split; [done|].
    exists i, (ticks w). cbn. rewrite Hclk. split; [lia|done].
  - destruct (addToCache && _); sym_exec.
    + rewrite <- app_assoc.
      eapply entries_ok_insert; [lia | reflexivity | | done].
      split; [by apply valid_grow|]. cbn. split.
      * rewrite len_fresh. rewrite read_grow by done. by apply len_read.
      * exists (ticks w), (S (ticks w)). rewrite Hclk. split; [lia|done].
    + unfold on_db. cbn. destruct (pebble_Set _ _ _ _) as [[] ?]; sym_exec;
        rewrite <- ?app_assoc; by apply entries_ok_mono.
Qed.

Lemma Evict_entries_ok clk key w :
  entries_ok clk w → entries_ok clk (Evict key w).2.
Proof.
  intros H. unfold_ops. sym_exec.
  destruct (data (cache w) !! key_of (heap w) key) as [e|] eqn:Hd; sym_exec.
  - unfold on_db. cbn. destruct (pebble_Set _ _ _ _) as [[] ?]; sym_exec;
      rewrite <- ?app_assoc; by eapply entries_ok_delete.
  - by apply entries_ok_mono.
Qed.

Lemma round_entries_ok clk k s w :
  entries_ok clk w → entries_ok clk (prefetch_round k s w).2.
Proof.
  intros H. pose proof (proj1 H) as Hclk. unfold_ops. sym_exec.
  destruct (data (cache w) !! k) as [e|] eqn:Hd; sym_exec; [done|].
  unfold on_db. cbn. destruct (pebble_Get _ _) as [[[]|val] ?]; sym_exec.
  1,2: by apply entries_ok_mono.
  rewrite Hd. sym_exec.
  destruct (int_sub _ _ =? 0); sym_exec; rewrite <- app_assoc;
    [by apply entries_ok_mono|].
  eapply entries_ok_insert; [lia | reflexivity | | done].
  split; [rewrite app_assoc; apply valid_fresh|]. split; [done|].
  exists (ticks w), (S (ticks w)). cbn. rewrite Hclk. split; [lia|done].
Qed.

Lemma prefetch_loop_entries_ok clk ks s w :
  entries_ok clk w → entries_ok clk (prefetch_loop ks s w).2.
Proof.
  revert s w. induction ks as [|k rest IH]; intros s w H; [done|].
  cbn [prefetch_loop]. unfold bind.
  pose proof (round_entries_ok clk k s w H) as H1.
  destruct (prefetch_round k s w) as [[s1|s1 err] w1]; cbn [snd] in *;
    [by apply IH | done].
Qed.

Lemma Prefetch_entries_ok clk keys w :
  entries_ok clk w → entries_ok clk (Prefetch keys w).2.
Proof.
  intros H. unfold Prefetch, bind.
  destruct (dedup_loop_grow keys ∅ [] w) as [ext Hg].
  destruct (dedup_loop keys ∅ [] w) as [ks w1]. cbn [snd] in Hg. subst w1.
  apply prefetch_loop_entries_ok. by apply entries_ok_mono.
Qed.

Lemma valid_write h s i x h' s' :
  write h s i x = Some h' → valid h s' → valid h' s'.
Proof.
  destruct s as [|b o n]; [done|]. cbn. case_decide; [|done].
  destruct (h !! b) as [arr|] eqn:Hb; [|done]. intros [= <-].
  destruct s' as [|b' o' n']; [done|]. cbn.
  destruct (decide (b = b')) as [<-|Hne].
  - rewrite Hb. rewrite list_lookup_insert_eq by (by eapply lookup_lt_Some).
    by rewrite length_insert.
  - by rewrite list_lookup_insert_ne.
Qed.

Lemma caller_write_entries_ok clk s i x w :
  entries_ok clk w → entries_ok clk (caller_write s i x w).
Proof.
  intros H. unfold caller_write.
  destruct (write (heap w) s i x) as [h'|] eqn:Hw; [|done].
  destruct H as [Hclk H]. split; [done|].
  intros k e He. cbn in *. destruct (H k e He) as (Hv & Hrest).
  split; [by eapply valid_write|done].
Qed.

Lemma exec_entries_ok clk c w :
  call_valid (heap w) c → entries_ok clk w → entries_ok clk (exec c w).
Proof.
  destruct c; cbn [exec call_valid]; intros Hc H.
  - by apply Get_entries_ok.
  - by apply Set_entries_ok.
  - by apply Evict_entries_ok.
  - by apply Prefetch_entries_ok.
  - done.
  - unfold_ops. unfold on_db. destruct (pebble_Close _). exact H.
  - by apply (entries_ok_mono clk w [bs]).
  - by apply caller_write_entries_ok.
Qed.

Lemma run_entries_ok clk cs w :
  calls_valid cs w → entries_ok clk w → entries_ok clk (run cs w).
Proof.
  revert w. induction cs as [|c cs IH]; intros w Hcs H; [done|].
  destruct Hcs as [Hc Hcs]. cbn. apply IH; [done|]. by apply exec_entries_ok.
Qed.

(** X20: as long as the values handed to [Set] are slices of the heap,
    every entry of the table keeps its slice inside the heap and its
    [size] equal to the number of its bytes, whatever the callers write
    into their buffers; with a clock that does not go back,
    [first_inserted] is never after [last_updated]. *)
Theorem entries_well_formed (h : Heap) (clk : nat → Time) (d : DB) (cap : Z)
    (cs : list Call) (k : string) (e : CacheEntry) :
  calls_valid cs (start h clk d cap) →
  let w := run cs (start h clk d cap) in
  data (cache w) !! k = Some e →
  valid (heap w) (value e) ∧
  size e = Z.of_nat (length (read (heap w) (value e))) ∧
  ((∀ i j, (i ≤ j)%nat → clk i <= clk j) →
   first_inserted e <= last_updated e).
Proof.
  intros Hcs w He.
  assert (entries_ok clk w) as [_ Hok].
  { apply run_entries_ok; [done|]. split; [done|].
    intros k' e'. cbn. by rewrite lookup_empty. }
  destruct (Hok k e He) as (Hv & Hs & i & j & Hij & Hi & Hj).
  split; [done|]. split; [by rewrite len_read|].
  intros Hmono. rewrite Hi, Hj. apply Hmono. lia.
Qed.

(** * The further properties at work on the sample worlds *)

Lemma ex_warm_table :
  data (cache (ex_warm 1)) = {[ "k"%string := mkCacheEntry ex_V 1 0 1 ]}.
Proof. vm_compute. reflexivity. Qed.

Lemma ex_warm_entries_valid : entries_valid (ex_warm 1).
Proof.
  intros k e. rewrite ex_warm_table. intros [_ <-]%lookup_singleton_Some.
  vm_compute. lia.
Qed.

(** A hit on the resident ["k"]; the returned buffer is then overwritten. *)
Lemma get_hit_defensive_copy_witness :
  ∃ s w',
    Get ex_K (ex_warm 1) = ((s, true, None), w') ∧
    read (heap w') s = [x01] ∧
    contents (caller_write s 0 x02 w') = contents (ex_warm 1).
Proof.
  destruct (get_hit_defensive_copy ex_K (ex_warm 1) (mkCacheEntry ex_V 1 0 1))
    as (s & w' & H1 & H2 & _ & _ & _ & H3).
  - exact ex_warm_entries_valid.
  - vm_compute; reflexivity.
  - exists s, w'. split; [exact H1|]. split; [exact H2 | apply H3].
Defined.

(** The resident ["k"] set again; the caller then overwrites its value
    buffer. *)
Lemma set_overwrite_private_copy_witness :
  ∃ w',
    Set_ ex_K ex_V false (ex_warm 1) = ((true, None), w') ∧
    contents (caller_write ex_V 0 x02 w') !! "k"%string = Some [x01].
Proof.
  destruct (set_overwrite_private_copy ex_K ex_V false (ex_warm 1)
              (mkCacheEntry ex_V 1 0 1)) as (w' & H1 & _ & H2).
  - vm_compute; lia.
  - vm_compute; reflexivity.
  - exists w'. split; [exact H1 | apply H2].
Defined.

(** ["j"] looked up while the store fails. *)
Lemma get_store_error_witness :
  ∃ w', Get ex_J ex_failing = ((SNil, false, Some (ErrStore 7)), w').
Proof.
  destruct (get_store_error ex_J ex_failing 7%nat) as (w' & H1 & _).
  - vm_compute; reflexivity.
  - reflexivity.
  - by exists w'.
Defined.

(** ["j"] set and read back on a full table. *)
Lemma set_then_get_witness :
  ∃ placed w1 s w2,
    Set_ ex_J ex_V true (ex_warm 1) = ((placed, None), w1) ∧
    Get ex_J w1 = ((s, true, None), w2) ∧
    read (heap w2) s = [x01].
Proof.
  destruct (set_then_get ex_J ex_V true (ex_warm 1))
    as (placed & w1 & s & w2 & H1 & H2 & H3).
  - vm_compute; lia.
  - vm_compute; lia.
  - reflexivity.
  - reflexivity.
  - exists placed, w1, s, w2. split; [exact H1|]. split; [exact H2 | exact H3].
Defined.

(** The resident ["k"] evicted. *)
Lemma evict_outcome_witness :
  (Evict ex_K (ex_warm 1)).1.2 = None ∧
  is_Some (data (cache (ex_warm 1)) !! "k"%string).
Proof.
  destruct (evict_outcome ex_K (ex_warm 1)) as (_ & _ & _ & H & _).
  apply H. reflexivity.
Defined.

(** One entry in a cache of capacity two. *)
Lemma remaining_capacity_exact_witness :
  RemainingCapacity (run [CallSet ex_K ex_V true] (ex_empty 2)) =
    (2 - len_data (data (cache (run [CallSet ex_K ex_V true] (ex_empty 2)))),
     run [CallSet ex_K ex_V true] (ex_empty 2)).
Proof.
  apply (remaining_capacity_exact ex_heap ex_clock (mkDB ∅ ∅ []) 2
           [CallSet ex_K ex_V true]).
  unfold int_max. lia.
Defined.

(** A new cache of capacity one admits ["k"]. *)
Lemma set_admits_iff_room_witness :
  (Set_ ex_K ex_V true (run [] (ex_empty 1))).1.1 = true ↔
  0 < (RemainingCapacity (run [] (ex_empty 1))).1.
Proof.
  apply (set_admits_iff_room ex_heap ex_clock (mkDB ∅ ∅ []) 1 [] ex_K ex_V).
  - unfold int_max. lia.
  - reflexivity.
Defined.

(** Two keys given, at most two counted. *)
Lemma prefetch_count_bounds_witness :
  0 <= (Prefetch [ex_K; ex_K] (ex_warm 2)).1.1 <= 2.
Proof.
  apply (prefetch_count_bounds [ex_K; ex_K] (ex_warm 2)).
  unfold int_max. cbn. lia.
Defined.

(** ["j"], written to the store, is prefetched and then read. *)
Lemma prefetch_then_get_witness :
  ∃ w1 s w2,
    Prefetch [ex_J] (Set_ ex_J ex_V false (ex_empty 1)).2 = ((1, None), w1) ∧
    Get ex_J w1 = ((s, true, None), w2) ∧
    read (heap w2) s = [x01].
Proof.
  destruct (prefetch_then_get ex_J (Set_ ex_J ex_V false (ex_empty 1)).2 [x01])
    as (w1 & s & w2 & H1 & H2 & H3 & _).
  - vm_compute; lia.
  - vm_compute; reflexivity.
  - vm_compute; reflexivity.
  - reflexivity.
  - split; [reflexivity | vm_compute; discriminate].
  - exists w1, s, w2. split; [exact H1|]. split; [exact H2 | exact H3].
Defined.

(** ["k"] admitted on a new cache: the store is not called. *)
Lemma set_result_tells_place_witness :
  db (cache (Set_ ex_K ex_V true (ex_empty 1)).2) = db (cache (ex_empty 1)).
Proof.
  destruct (set_result_tells_place ex_K ex_V true (ex_empty 1)) as (H & _).
  destruct H as (_ & H & _); [reflexivity | exact H].
Defined.

(** A cache of capacity -1 over a store that holds ["k"]. *)
Lemma negative_capacity_witness :
  ∃ w',
    Prefetch [ex_K]
      (start ex_heap ex_clock (mkDB {[ [x6b] := [x01] ]} ∅ []) (-1))
      = ((1, None), w') ∧
    capacity (cache w') < len_data (data (cache w')).
Proof.
  destruct (negative_capacity ex_heap ex_clock
              (mkDB {[ [x6b] := [x01] ]} ∅ []) (-1) ex_K [x01])
    as (_ & (w' & H1 & _ & H2) & _).
  - unfold int_min. lia.
  - cbn; lia.
  - vm_compute; reflexivity.
  - reflexivity.
  - exists w'. split; [exact H1 | exact H2].
Defined.

(** The resident ["k"] evicted over a failing store, then looked up. *)
Lemma failed_evict_loses_value_witness :
  ∃ w1 w2,
    Evict ex_K ex_failing = ((false, Some (ErrStore 7)), w1) ∧
    Get ex_K w1 = ((SNil, false, None), w2).
Proof.
  apply (failed_evict_loses_value ex_K ex_failing (mkCacheEntry ex_V 1 0 1)).
  - vm_compute; lia.
  - vm_compute; reflexivity.
  - vm_compute; reflexivity.
  - reflexivity.
  - reflexivity.
Defined.

(** [Prefetch(["k", "k", "j"])] counts the two keys resident afterwards. *)
Lemma prefetch_counts_residents_witness :
  2 = count_resident
        (data (cache (Prefetch [ex_K; ex_K; ex_J] (ex_warm 2)).2))
        (dedup_first (key_of (heap (ex_warm 2)) <$> [ex_K; ex_K; ex_J])).
Proof.
  apply (prefetch_counts_residents [ex_K; ex_K; ex_J] (ex_warm 2) 2).
  - repeat (apply Forall_cons; split; [vm_compute; lia|]).
    exact (Forall_nil_2 _).
  - unfold int_max. cbn. lia.
  - vm_compute; reflexivity.
Defined.

(** ["k"] admitted, its value buffer overwritten by the caller, ["k"] set
    again. *)
Lemma entries_well_formed_witness :
  let w := run [CallSet ex_K ex_V true; CallerWrite ex_V 0 x02;
                CallSet ex_K ex_V false] (ex_empty 1) in
  valid (heap w) (SRef 6 0 1) ∧
  1 = Z.of_nat (length (read (heap w) (SRef 6 0 1))).
Proof.
  destruct (entries_well_formed ex_heap ex_clock (mkDB ∅ ∅ []) 1
              [CallSet ex_K ex_V true; CallerWrite ex_V 0 x02;
               CallSet ex_K ex_V false]
              "k"%string (mkCacheEntry (SRef 6 0 1) 1 0 2))
    as (H1 & H2 & _).
  - vm_compute. repeat split; lia.
  - vm_compute; reflexivity.
  - split; [exact H1 | exact H2].
Defined.
